(** * Outbound selection and provider synchronisation

    A shallow embedding of the [Selector] outbound group (package [group]),
    of the [adapter.Provider] contract it consumes, and of the file-backed
    provider [ProviderLocal] (package [provider]), together with the
    properties their design document states about them.

    Go values are modelled as follows.
    - An interface value ([adapter.Outbound], [adapter.Provider]) is a handle
      compared by identity; a possibly-nil interface is an [option].
    - [map[string]V] is a [gmap string V]; a [nil] map is the empty map
      (the code only reads from a nil map).
    - A slice is a [list]; every slice the code tests against [nil] is built
      by [append] from a nil slice, so it is nil exactly when it is empty.
    - A Go function returning [(T, error)] returns a pair whose second
      component is an [error] (an optional message); a run-time panic
      (nil dereference, index out of range) is the [Panic] outcome.
    - The collaborators reached through the context (outbound manager,
      provider manager, persisted-selection store, interrupt group, logger)
      form the [World] that every method receives and may change. *)

From stdpp Require Import gmap strings list fin_maps pretty.

(** ** Outcomes *)

Definition error := option string.

Inductive result (A : Type) : Type :=
| Return (a : A)
| Panic (msg : string).
Arguments Return {A} a.
Arguments Panic {A} msg.

Definition bind {A B : Type} (r : result A) (k : A -> result B) : result B :=
  match r with
  | Return a => k a
  | Panic msg => Panic msg
  end.

(** ** Handles of the adapter package *)

(** [adapter.Outbound]: a tagged handle.  [o_id] is the identity of the
    instance, so that two instances carrying the same tag stay distinct
    under Go's [==] on interface values. *)
Record Outbound : Type := mkOutbound { o_id : nat; o_tag : string }.

#[global] Instance Outbound_eq_dec : EqDecision Outbound.
Proof. solve_decision. Defined.

(** [adapter.Provider] (src/adapter/provider.go): [Tag()] is fixed for an
    instance, while [Outbounds()] and [IsUpdating()] read the provider's
    current state, which lives in the [World]. *)
Record Provider : Type := mkProvider { p_id : nat; p_tag : string }.

#[global] Instance Provider_eq_dec : EqDecision Provider.
Proof. solve_decision. Defined.

(** [*regexp.Regexp]: only [MatchString] is used. *)
Record Regexp : Type := mkRegexp { MatchString : string -> bool }.

(** ** Collaborators *)

(** What the Selector does to the outside: persistence writes, error log
    lines and interrupt signals, most recent last. *)
Inductive Event : Type :=
| EvStoreSelected (group selected : string)
| EvLogError (msg : string)
| EvInterrupt (interruptExternalConnections : bool).

#[global] Instance Event_eq_dec : EqDecision Event.
Proof. solve_decision. Defined.

(** Modelled from the spec: [adapter.CacheFile], the persisted-selection
    store, is not among the sources.  [StoreSelected(selectorTag, chosenTag)
    -> error] and [LoadSelected(selectorTag) -> chosenTag | empty], keyed by
    Selector tag; [cf_failing] makes every write fail. *)
Record CacheFile : Type := mkCacheFile {
  cf_selected : gmap string string;
  cf_failing : bool
}.

Definition LoadSelected (cf : CacheFile) (group : string) : string :=
  default "" (cf_selected cf !! group).

Definition StoreSelected (cf : CacheFile) (group selected : string)
  : CacheFile * error :=
  if cf_failing cf then (cf, Some "store failed")
  else (mkCacheFile (<[group := selected]> (cf_selected cf)) (cf_failing cf), None).

Record World : Type := mkWorld {
  (** registry behind [adapter.OutboundManager] *)
  w_outbounds : list Outbound;
  (** registry behind [adapter.ProviderManager], in enumeration order *)
  w_providers : list Provider;
  (** [p.Outbounds()] *)
  w_provider_outbounds : Provider -> list Outbound;
  (** [p.IsUpdating()] *)
  w_provider_updating : Provider -> bool;
  (** [service.FromContext[adapter.CacheFile](ctx)] *)
  w_cacheFile : option CacheFile;
  w_trace : list Event
}.

(** Modelled from the spec: the outbound manager's implementation is not
    among the sources; it is a process-wide lookup of outbounds by tag, a
    miss giving [(nil, false)]. *)
Definition om_Outbound (w : World) (tag : string) : option Outbound :=
  List.find (fun o => String.eqb (o_tag o) tag) (w_outbounds w).

(** Modelled from the spec: only the [ProviderManager] interface is among
    the sources; the manager supports enumeration and lookup by tag, a miss
    giving [(nil, false)]. *)
Definition pm_Providers (w : World) : list Provider := w_providers w.

Definition pm_Provider (w : World) (tag : string) : option Provider :=
  List.find (fun p => String.eqb (p_tag p) tag) (w_providers w).

Definition emit (e : Event) (w : World) : World :=
  mkWorld (w_outbounds w) (w_providers w) (w_provider_outbounds w)
          (w_provider_updating w) (w_cacheFile w) (w_trace w ++ [e]).

Definition set_cacheFile (cf : option CacheFile) (w : World) : World :=
  mkWorld (w_outbounds w) (w_providers w) (w_provider_outbounds w)
          (w_provider_updating w) cf (w_trace w).

(** ** The Selector *)

(** The only cache file a Selector can hold is the context's service. *)
Inductive CacheFileRef : Type := CtxCacheFile.

Record Selector : Type := mkSelector {
  (** [outbound.Adapter]: [Tag()] and [Dependencies()] *)
  adapterTag : string;
  adapterDependencies : list string;
  cacheFile : option CacheFileRef;
  tags : list string;
  defaultTag : string;
  outbounds : gmap string Outbound;
  outboundsCache : gmap string (list Outbound);
  providers : gmap string (option Provider);
  selected : option Outbound;
  interruptExternalConnections : bool;
  include : option Regexp;
  exclude : option Regexp;
  providerTags : list string;
  useAllProviders : bool
}.

Definition set_cacheFileRef (v : option CacheFileRef) (s : Selector) : Selector :=
  mkSelector (adapterTag s) (adapterDependencies s) v (tags s) (defaultTag s)
    (outbounds s) (outboundsCache s) (providers s) (selected s)
    (interruptExternalConnections s) (include s) (exclude s) (providerTags s)
    (useAllProviders s).

Definition set_tags (v : list string) (s : Selector) : Selector :=
  mkSelector (adapterTag s) (adapterDependencies s) (cacheFile s) v (defaultTag s)
    (outbounds s) (outboundsCache s) (providers s) (selected s)
    (interruptExternalConnections s) (include s) (exclude s) (providerTags s)
    (useAllProviders s).

Definition set_outbounds (v : gmap string Outbound) (s : Selector) : Selector :=
  mkSelector (adapterTag s) (adapterDependencies s) (cacheFile s) (tags s) (defaultTag s)
    v (outboundsCache s) (providers s) (selected s)
    (interruptExternalConnections s) (include s) (exclude s) (providerTags s)
    (useAllProviders s).

Definition set_outboundsCache (v : gmap string (list Outbound)) (s : Selector) : Selector :=
  mkSelector (adapterTag s) (adapterDependencies s) (cacheFile s) (tags s) (defaultTag s)
    (outbounds s) v (providers s) (selected s)
    (interruptExternalConnections s) (include s) (exclude s) (providerTags s)
    (useAllProviders s).

Definition set_providers (v : gmap string (option Provider)) (s : Selector) : Selector :=
  mkSelector (adapterTag s) (adapterDependencies s) (cacheFile s) (tags s) (defaultTag s)
    (outbounds s) (outboundsCache s) v (selected s)
    (interruptExternalConnections s) (include s) (exclude s) (providerTags s)
    (useAllProviders s).

Definition set_selected (v : option Outbound) (s : Selector) : Selector :=
  mkSelector (adapterTag s) (adapterDependencies s) (cacheFile s) (tags s) (defaultTag s)
    (outbounds s) (outboundsCache s) (providers s) v
    (interruptExternalConnections s) (include s) (exclude s) (providerTags s)
    (useAllProviders s).

Definition set_providerTags (v : list string) (s : Selector) : Selector :=
  mkSelector (adapterTag s) (adapterDependencies s) (cacheFile s) (tags s) (defaultTag s)
    (outbounds s) (outboundsCache s) (providers s) (selected s)
    (interruptExternalConnections s) (include s) (exclude s) v
    (useAllProviders s).

(** [NewSelector], after the two patterns have been compiled. *)
Definition NewSelector (tag : string) (optOutbounds : list string)
    (optDefault : string) (optInterrupt : bool)
    (optInclude optExclude : option Regexp)
    (optProviders : list string) (optUseAllProviders : bool) : Selector :=
  mkSelector tag optOutbounds None optOutbounds optDefault ∅ ∅ ∅ None
    optInterrupt optInclude optExclude optProviders optUseAllProviders.

(** *** filterOutbounds *)

(** The loop over the static dependency tags; [i] is the loop index, used
    only in the error message. *)
Fixpoint resolveDependencies (w : World) (i : nat) (deps : list string)
    (outboundByTag : gmap string Outbound) : gmap string Outbound + string :=
  match deps with
  | [] => inl outboundByTag
  | tag :: rest =>
      match om_Outbound w tag with
      | None => inr ("outbound " +:+ pretty i +:+ " not found: " +:+ tag)
      | Some detour => resolveDependencies w (S i) rest (<[tag := detour]> outboundByTag)
      end
  end.

(** [s.include != nil && !s.include.MatchString(tag)] *)
Definition includeRejects (s : Selector) (tag : string) : bool :=
  match include s with
  | Some re => negb (MatchString re tag)
  | None => false
  end.

(** [s.exclude != nil && s.exclude.MatchString(tag)] *)
Definition excludeRejects (s : Selector) (tag : string) : bool :=
  match exclude s with
  | Some re => MatchString re tag
  | None => false
  end.

(** The loop over [provider.Outbounds()], with its three accumulators. *)
Fixpoint fetchLoop (s : Selector) (ds : list Outbound) (tags : list string)
    (cache : list Outbound) (outboundByTag : gmap string Outbound)
  : list string * list Outbound * gmap string Outbound :=
  match ds with
  | [] => (tags, cache, outboundByTag)
  | detour :: rest =>
      let tag := o_tag detour in
      if includeRejects s tag then fetchLoop s rest tags cache outboundByTag
      else if excludeRejects s tag then fetchLoop s rest tags cache outboundByTag
      else fetchLoop s rest (tags ++ [tag]) (cache ++ [detour])
                     (<[tag := detour]> outboundByTag)
  end.

(** The loop over a cached list. *)
Fixpoint cachedLoop (ds : list Outbound) (tags : list string)
    (outboundByTag : gmap string Outbound)
  : list string * gmap string Outbound :=
  match ds with
  | [] => (tags, outboundByTag)
  | detour :: rest =>
      cachedLoop rest (tags ++ [o_tag detour]) (<[o_tag detour := detour]> outboundByTag)
  end.

(** [s.outboundsCache[providerTag]]: a missing key reads as the nil slice. *)
Definition cacheEntry (cache : gmap string (list Outbound)) (providerTag : string)
  : list Outbound :=
  default [] (cache !! providerTag).

(** [s.outboundsCache[providerTag] != nil] *)
Definition cacheNonNil (cache : gmap string (list Outbound)) (providerTag : string) : bool :=
  match cacheEntry cache providerTag with
  | [] => false
  | _ :: _ => true
  end.

(** [s.providers[providerTag]]: a missing key and a stored nil both read as
    the nil interface. *)
Definition boundProvider (s : Selector) (providerTag : string) : option Provider :=
  match providers s !! providerTag with
  | Some (Some p) => Some p
  | _ => None
  end.

(** The loop over [s.providerTags]; the cache is the part of the Selector it
    writes. *)
Fixpoint providerLoop (w : World) (s : Selector) (tag : string) (pts : list string)
    (tags : list string) (outboundByTag : gmap string Outbound)
    (cache : gmap string (list Outbound))
  : result (list string * gmap string Outbound * gmap string (list Outbound)) :=
  match pts with
  | [] => Return (tags, outboundByTag, cache)
  | providerTag :: rest =>
      if bool_decide (providerTag ≠ tag) && cacheNonNil cache providerTag then
        let '(tags', outboundByTag') :=
          cachedLoop (cacheEntry cache providerTag) tags outboundByTag in
        providerLoop w s tag rest tags' outboundByTag' cache
      else
        match boundProvider s providerTag with
        | None => Panic "nil pointer dereference: provider.Outbounds()"
        | Some provider =>
            let '(tags', fetched, outboundByTag') :=
              fetchLoop s (w_provider_outbounds w provider) tags [] outboundByTag in
            providerLoop w s tag rest tags' outboundByTag'
                         (<[providerTag := fetched]> cache)
        end
  end.

(** The closing fallback. *)
Definition compatibleFallback (w : World) (tags : list string)
    (outboundByTag : gmap string Outbound)
  : result (list string * gmap string Outbound) :=
  match tags with
  | [] =>
      match om_Outbound w "Compatible" with
      | None => Panic "nil pointer dereference: detour.Tag()"
      | Some detour => Return (tags ++ [o_tag detour], <[o_tag detour := detour]> outboundByTag)
      end
  | _ :: _ => Return (tags, outboundByTag)
  end.

Definition filterOutbounds (w : World) (s : Selector) (tag : string)
  : result (Selector * (list string * gmap string Outbound * error)) :=
  let tags := adapterDependencies s in
  match resolveDependencies w 0 tags ∅ with
  | inr e => Return (s, ([], ∅, Some e))
  | inl outboundByTag =>
      if bool_decide (defaultTag s ≠ "") && bool_decide (outboundByTag !! defaultTag s = None)
      then Return (s, ([], ∅, Some ("default outbound not found: " +:+ defaultTag s)))
      else
        bind (providerLoop w s tag (providerTags s) tags outboundByTag (outboundsCache s))
          (fun '(tags1, outboundByTag1, cache1) =>
        bind (compatibleFallback w tags1 outboundByTag1)
          (fun '(tags2, outboundByTag2) =>
        Return (set_outboundsCache cache1 s, (tags2, outboundByTag2, None))))
  end.

(** *** outboundSelect *)

(** First tier: the persisted choice of an addressable Selector, when it is
    still a candidate.  [s.cacheFile], when not nil, is the context's
    store. *)
Definition persistedChoice (w : World) (s : Selector) : option Outbound :=
  if bool_decide (adapterTag s ≠ "") then
    match cacheFile s, w_cacheFile w with
    | Some CtxCacheFile, Some cf =>
        let selected := LoadSelected cf (adapterTag s) in
        if bool_decide (selected ≠ "") then outbounds s !! selected else None
    | _, _ => None
    end
  else None.

Definition outboundSelect (w : World) (s : Selector) : result (option Outbound * error) :=
  match persistedChoice w s with
  | Some detour => Return (Some detour, None)
  | None =>
      if bool_decide (defaultTag s ≠ "") then
        match outbounds s !! defaultTag s with
        | None => Return (None, Some ("default outbound not found: " +:+ defaultTag s))
        | Some detour => Return (Some detour, None)
        end
      else
        match tags s with
        | [] => Panic "index out of range [0] with length 0"
        | first :: _ => Return (outbounds s !! first, None)
        end
  end.

(** *** SelectOutbound *)

(** The persistence step of an actual change. *)
Definition persistSelected (w : World) (s : Selector) (tag : string) : World :=
  if bool_decide (adapterTag s ≠ "") then
    match w_cacheFile w with
    | None => w
    | Some cf =>
        let '(cf', err) := StoreSelected cf (adapterTag s) tag in
        let w' := emit (EvStoreSelected (adapterTag s) tag) (set_cacheFile (Some cf') w) in
        match err with
        | Some e => emit (EvLogError ("store selected: " +:+ e)) w'
        | None => w'
        end
    end
  else w.

Definition SelectOutbound (w : World) (s : Selector) (tag : string)
  : World * Selector * bool :=
  match outbounds s !! tag with
  | None => (w, s, false)
  | Some detour =>
      let old := selected s in
      let s' := set_selected (Some detour) s in
      if bool_decide (old = Some detour) then (w, s', true)
      else
        let w1 := persistSelected w s' tag in
        (emit (EvInterrupt (interruptExternalConnections s')) w1, s', true)
  end.

(** *** Start *)

(** The bind-all loop over [s.provider.Providers()]. *)
Fixpoint bindAllProviders (ps : list Provider) (providerTags : list string)
    (bound : gmap string (option Provider))
  : list string * gmap string (option Provider) :=
  match ps with
  | [] => (providerTags, bound)
  | provider :: rest =>
      bindAllProviders rest (providerTags ++ [p_tag provider])
                       (<[p_tag provider := Some provider]> bound)
  end.

(** The loop over the explicit provider tags.  On a miss the code builds an
    error value with [E.New] and drops it; the nil provider is stored. *)
Fixpoint bindExplicitProviders (w : World) (i : nat) (pts : list string)
    (bound : gmap string (option Provider)) : gmap string (option Provider) :=
  match pts with
  | [] => bound
  | tag :: rest =>
      let provider := pm_Provider w tag in
      bindExplicitProviders w (S i) rest (<[tag := provider]> bound)
  end.

Definition bindProviders (w : World) (s : Selector) : Selector :=
  if useAllProviders s then
    let '(providerTags, bound) := bindAllProviders (pm_Providers w) [] (providers s) in
    set_providerTags providerTags (set_providers bound s)
  else
    set_providers (bindExplicitProviders w 0 (providerTags s) (providers s)) s.

Definition ctxCacheFileRef (w : World) : option CacheFileRef :=
  match w_cacheFile w with
  | Some _ => Some CtxCacheFile
  | None => None
  end.

Definition Start (w : World) (s : Selector) : result (Selector * error) :=
  let s1 := bindProviders w s in
  if Nat.eqb (length (tags s1) + length (providerTags s1)) 0 then
    Return (s1, Some "missing outbound and provider tags")
  else
    bind (filterOutbounds w s1 "") (fun '(s2, (tags', outboundByTag, err)) =>
      match err with
      | Some e => Return (s2, Some e)
      | None =>
          let s3 := set_cacheFileRef (ctxCacheFileRef w)
                      (set_outbounds outboundByTag (set_tags tags' s2)) in
          bind (outboundSelect w s3) (fun '(outbound, err) =>
            match err with
            | Some e => Return (s3, Some e)
            | None => Return (set_selected outbound s3, None)
            end)
      end).

(** [Now]: the tag of the active member, the first candidate before any
    selection. *)
Definition Now (s : Selector) : result string :=
  match selected s with
  | Some detour => Return (o_tag detour)
  | None =>
      match tags s with
      | [] => Panic "index out of range [0] with length 0"
      | first :: _ => Return first
      end
  end.

Definition All (s : Selector) : list string := tags s.

(** *** UpdateOutbounds *)

(** The debounce loop over [s.provider.Providers()]. *)
Fixpoint anyOtherUpdating (w : World) (tag : string) (ps : list Provider) : bool :=
  match ps with
  | [] => false
  | p :: rest =>
      if bool_decide (p_tag p ≠ tag) && w_provider_updating w p then true
      else anyOtherUpdating w tag rest
  end.

Definition UpdateOutbounds (w : World) (s : Selector) (tag : string)
  : result (World * Selector * error) :=
  match providers s !! tag with
  | None => Return (w, s, Some ("outbound provider not found: " +:+ tag))
  | Some _ =>
      bind (filterOutbounds w s tag) (fun '(s1, (tags', outboundByTag, _)) =>
        let s2 := set_outbounds outboundByTag (set_tags tags' s1) in
        if anyOtherUpdating w tag (pm_Providers w) then Return (w, s2, None)
        else
          bind (outboundSelect w s2) (fun '(detour, err) =>
            match err with
            | Some _ => Return (w, s2, None)
            | None =>
                match detour with
                | None => Panic "nil pointer dereference: detour.Tag()"
                | Some d =>
                    let '(w', s3, _) := SelectOutbound w s2 (o_tag d) in
                    Return (w', s3, None)
                end
            end))
  end.

(** *** HasProvider *)

Definition HasProvider (w : World) (s : Selector) (tag : string) : bool :=
  if useAllProviders s then
    match pm_Provider w tag with
    | Some _ => true
    | None => false
    end
  else bool_decide (tag ∈ providerTags s).

(** *** NewSelector, from its options *)

(** [option.SelectorOutboundOptions] *)
Record SelectorOutboundOptions : Type := mkSelectorOutboundOptions {
  opt_Outbounds : list string;
  opt_Providers : list string;
  opt_UseAllProviders : bool;
  opt_Exclude : string;
  opt_Include : string;
  opt_Default : string;
  opt_InterruptExistConnections : bool
}.

(** The two guarded calls of [regexp.Compile], the exclude pattern first;
    [compile] stands for [regexp.Compile]. *)
Definition compilePattern (compile : string -> Regexp + string) (pattern : string)
  : option Regexp + string :=
  if bool_decide (pattern ≠ "") then
    match compile pattern with
    | inl re => inl (Some re)
    | inr e => inr e
    end
  else inl None.

Definition NewSelectorFromOptions (compile : string -> Regexp + string)
    (tag : string) (options : SelectorOutboundOptions) : option Selector * error :=
  match compilePattern compile (opt_Exclude options) with
  | inr e => (None, Some e)
  | inl exclude =>
      match compilePattern compile (opt_Include options) with
      | inr e => (None, Some e)
      | inl include =>
          (Some (NewSelector tag (opt_Outbounds options) (opt_Default options)
                   (opt_InterruptExistConnections options) include exclude
                   (opt_Providers options) (opt_UseAllProviders options)), None)
      end
  end.

(** ** The file-backed provider *)

Module ProviderLocal.

(** [option.Outbound]: one parsed outbound configuration. *)
Record OutboundOptions : Type := mkOutboundOptions { opt_type : string; opt_tag : string }.

(** [*fswatch.Watcher] *)
Inductive Watcher : Type := mkWatcher (paths : list string).

(** The file system, the subscription parser and the watch primitive; a
    call that fails carries its error message on the right. *)
Record Env : Type := mkEnv {
  (** [filemanager.BasePath] followed by [filepath.Abs] *)
  env_resolve : string -> string;
  (** [os.Stat(path)], reduced to [ModTime()] *)
  env_Stat : string -> nat + string;
  env_ReadFile : string -> string + string;
  env_ParseSubscription : string -> list OutboundOptions + string;
  env_NewWatcher : list string -> Watcher + string
}.

Record ProviderLocal : Type := mkProviderLocal {
  (** [provider.Adapter]: its tag and the outbound set it manages *)
  adapterTag : string;
  adapterOutbounds : list OutboundOptions;
  lastOutOpts : list OutboundOptions;
  lastUpdated : nat;
  watcher : option Watcher;
  updating : bool
}.

(** Modelled from the spec: the embedded [provider.Adapter] is not among
    the sources; its [UpdateOutbounds(old, new)] diffs the new list against
    the previously held one and leaves the provider managing the new one. *)
Definition adapterUpdateOutbounds (old new : list OutboundOptions)
    (s : ProviderLocal) : ProviderLocal :=
  mkProviderLocal (adapterTag s) new (lastOutOpts s) (lastUpdated s)
                  (watcher s) (updating s).

Definition reloadFile (env : Env) (s : ProviderLocal) (path : string)
  : ProviderLocal * error :=
  let s1 :=
    match env_Stat env path with
    | inl modTime =>
        mkProviderLocal (adapterTag s) (adapterOutbounds s) (lastOutOpts s) modTime
                        (watcher s) (updating s)
    | inr _ => s
    end in
  match env_ReadFile env path with
  | inr e => (s1, Some e)
  | inl content =>
      match env_ParseSubscription env content with
      | inr e => (s1, Some e)
      | inl outboundOpts =>
          let s2 := adapterUpdateOutbounds (lastOutOpts s1) outboundOpts s1 in
          (mkProviderLocal (adapterTag s2) (adapterOutbounds s2) outboundOpts
                           (lastUpdated s2) (watcher s2) (updating s2), None)
      end
  end.

Definition NewProviderLocal (env : Env) (tag : string) (optionsPath : string)
  : option ProviderLocal * error :=
  if bool_decide (tag = "") then (None, Some "provider tag is required")
  else if bool_decide (optionsPath = "") then (None, Some "provider path is required")
  else
    let provider := mkProviderLocal tag [] [] 0 None false in
    let filePath := env_resolve env optionsPath in
    let '(provider, err) := reloadFile env provider filePath in
    match err with
    | Some e => (None, Some e)
    | None =>
        match env_NewWatcher env [filePath] with
        | inr e => (None, Some e)
        | inl watcher =>
            (Some (mkProviderLocal (adapterTag provider) (adapterOutbounds provider)
                     (lastOutOpts provider) (lastUpdated provider) (Some watcher)
                     (updating provider)), None)
        end
    end.

Definition IsUpdating (s : ProviderLocal) : bool := updating s.
Definition UpdatedAt (s : ProviderLocal) : nat := lastUpdated s.

(** What the provider does to the outside after construction: error log
    lines, the notification of the groups bound to it, and the calls that
    start the embedded Adapter and the watcher. *)
Inductive Notice : Type :=
| LogError (msg : string)
| UpdateGroups
| AdapterStart
| WatcherStart (wt : Watcher).

(** The closure given to [fswatch.NewWatcher] as [Callback].
    [provider.updating.Swap(true)] returns the previous flag; the deferred
    function clears the flag and calls the embedded Adapter's
    [UpdateGroups()], whatever the reload returned. *)
Definition watcherCallback (env : Env) (s : ProviderLocal) (path : string)
  : ProviderLocal * list Notice :=
  if updating s then (s, [])
  else
    let s1 := mkProviderLocal (adapterTag s) (adapterOutbounds s) (lastOutOpts s)
                (lastUpdated s) (watcher s) true in
    let '(s2, uErr) := reloadFile env s1 path in
    let logged :=
      match uErr with
      | Some e => [LogError ("reload provider " +:+ adapterTag s +:+ ": " +:+ e)]
      | None => []
      end in
    (mkProviderLocal (adapterTag s2) (adapterOutbounds s2) (lastOutOpts s2)
       (lastUpdated s2) (watcher s2) false,
     logged ++ [UpdateGroups]).

(** [Start]: [adapterStart] is the outcome of the embedded Adapter's
    [Start()], [watcherStart] that of the watcher's [Start()]; each call
    made is recorded. *)
Definition Start (adapterStart : error) (watcherStart : Watcher -> error)
    (s : ProviderLocal) : error * list Notice :=
  match adapterStart with
  | Some e => (Some e, [AdapterStart])
  | None =>
      match watcher s with
      | Some wt =>
          match watcherStart wt with
          | Some e =>
              (None, [AdapterStart; WatcherStart wt;
                      LogError ("watch provider file: " +:+ e)])
          | None => (None, [AdapterStart; WatcherStart wt])
          end
      | None => (None, [AdapterStart])
      end
  end.

End ProviderLocal.

(** ** Vocabulary of the properties *)

(** The include/exclude rule in the words of the design document: a tag is
    kept when (no include pattern or it matches include) and not (an exclude
    pattern is set and it matches exclude). *)
Definition survives (s : Selector) (t : string) : bool :=
  (match include s with None => true | Some re => MatchString re t end)
  && negb (match exclude s with None => false | Some re => MatchString re t end).

Definition kept (s : Selector) (ds : list Outbound) : list Outbound :=
  List.filter (fun d => survives s (o_tag d)) ds.


(** Registering a list of outbounds under their own tags, later entries
    overwriting earlier ones. *)
Definition insertAll (ds : list Outbound) (m : gmap string Outbound) : gmap string Outbound :=
  foldl (fun acc d => <[o_tag d := d]> acc) m ds.

(** A map is keyed by tag when every entry sits under its own tag. *)
Definition keyedByTag (m : gmap string Outbound) : Prop :=
  ∀ t d, m !! t = Some d → o_tag d = t.


(** The first tier applies to [d]: the Selector is addressable, it holds the
    store, and the store's choice for it is the candidate [d]. *)
Definition persistedCandidate (w : World) (s : Selector) (d : Outbound) : Prop :=
  adapterTag s ≠ "" ∧ cacheFile s = Some CtxCacheFile ∧
  ∃ cf, w_cacheFile w = Some cf ∧ LoadSelected cf (adapterTag s) ≠ "" ∧
        outbounds s !! LoadSelected cf (adapterTag s) = Some d.

Definition isStore (e : Event) : bool :=
  match e with EvStoreSelected _ _ => true | _ => false end.

Definition isInterrupt (e : Event) : bool :=
  match e with EvInterrupt _ => true | _ => false end.

Definition storeWrites (tr : list Event) : nat := length (List.filter isStore tr).
Definition interruptSignals (tr : list Event) : nat := length (List.filter isInterrupt tr).

Definition isCandidate (s : Selector) (d : Outbound) : Prop :=
  ∃ t, outbounds s !! t = Some d.

(** The active selection, once set, is a candidate. *)
Definition selectionInv (s : Selector) : Prop :=
  ∀ d, selected s = Some d → isCandidate s d.

(** The condition under which the provider loop fetches [pt]: it is the
    just-changed tag or its cache entry is nil. *)
Definition fetched (tag pt : string) (cache : gmap string (list Outbound)) : Prop :=
  pt = tag ∨ cacheNonNil cache pt = false.

(** ** Scenarios *)

Module Demo.

Definition A := mkOutbound 1 "A".
Definition B := mkOutbound 2 "B".
Definition pa1 := mkOutbound 11 "pa-1".
Definition pa2 := mkOutbound 12 "pa-2".
Definition pb1 := mkOutbound 21 "pb-1".
Definition compatible := mkOutbound 99 "Compatible".

Definition providerA := mkProvider 1 "providerA".
Definition providerB := mkProvider 2 "providerB".

Definition store0 : CacheFile := mkCacheFile ∅ false.

(** The Selector that [Start] leaves behind. *)
Definition afterStart (w : World) (s : Selector) : Selector :=
  match Start w s with
  | Return (s', _) => s'
  | Panic _ => s
  end.

(** Two static outbounds, no provider, an empty persisted store. *)
Definition w_static : World :=
  mkWorld [A; B; compatible] [] (fun _ => []) (fun _ => false) (Some store0) [].

Definition sel_static : Selector :=
  NewSelector "select" ["A"; "B"] "" false None None [] false.

Definition s_static : Selector := afterStart w_static sel_static.

Definition w_static_B : World := (SelectOutbound w_static s_static "B").1.1.
Definition s_static_B : Selector := (SelectOutbound w_static s_static "B").1.2.

(** The same outbounds with "A" as configured default and a store that
    remembers "B". *)
Definition w_persisted : World :=
  mkWorld [A; B; compatible] [] (fun _ => []) (fun _ => false)
          (Some (mkCacheFile {["select" := "B"]} false)) [].

Definition sel_default : Selector :=
  NewSelector "select" ["A"; "B"] "A" false None None [] false.

Definition s_persisted : Selector := afterStart w_persisted sel_default.

(** Two providers and no static outbound. *)
Definition reports (a b : list Outbound) (p : Provider) : list Outbound :=
  if String.eqb (p_tag p) "providerA" then a
  else if String.eqb (p_tag p) "providerB" then b
  else [].

Definition w_two : World :=
  mkWorld [compatible] [providerA; providerB] (reports [pa1; pa2] [pb1])
          (fun _ => false) (Some store0) [].

Definition sel_two : Selector :=
  NewSelector "select" [] "" false None None ["providerA"; "providerB"] false.

Definition s_two : Selector := afterStart w_two sel_two.

(** The user picks providerB's outbound. *)
Definition w_picked : World := (SelectOutbound w_two s_two "pb-1").1.1.
Definition s_picked : Selector := (SelectOutbound w_two s_two "pb-1").1.2.

(** providerB then reloads to an empty list while providerA is still
    reloading. *)
Definition w_dropped : World :=
  mkWorld (w_outbounds w_picked) (w_providers w_picked) (reports [pa1; pa2] [])
          (fun p => String.eqb (p_tag p) "providerA")
          (w_cacheFile w_picked) (w_trace w_picked).

Definition rebuilt : Selector * (list string * gmap string Outbound * error) :=
  match filterOutbounds w_dropped s_picked "providerB" with
  | Return r => r
  | Panic _ => (s_picked, ([], ∅, None))
  end.

Definition s_debounced : Selector :=
  set_outbounds rebuilt.2.1.2 (set_tags rebuilt.2.1.1 rebuilt.1).

(** providerA alone reloads to a shorter list, nobody else updating. *)
Definition w_shrunk : World :=
  mkWorld (w_outbounds w_two) (w_providers w_two) (reports [pa2] [pb1])
          (fun _ => false) (w_cacheFile w_two) (w_trace w_two).

(** One provider that reports nothing, no static outbound. *)
Definition w_empty : World :=
  mkWorld [compatible] [providerA] (reports [] []) (fun _ => false) (Some store0) [].

Definition sel_one : Selector :=
  NewSelector "select" [] "" false None None ["providerA"] false.

Definition s_bound : Selector := bindProviders w_empty sel_one.

(** An explicit provider tag the manager does not hold. *)
Definition sel_missing : Selector :=
  NewSelector "select" [] "" false None None ["missing"] false.

(** A pattern pair: keep the "pa-" tags, drop "pa-2". *)
Definition startsWith_pa : Regexp := mkRegexp (String.prefix "pa-").
Definition is_pa2 : Regexp := mkRegexp (String.eqb "pa-2").

Definition sel_filtered : Selector :=
  NewSelector "select" [] "" false (Some startsWith_pa) (Some is_pa2)
              ["providerA"; "providerB"] false.

(** Subscription files. *)
Definition node : ProviderLocal.OutboundOptions :=
  ProviderLocal.mkOutboundOptions "direct" "node-1".

Definition env (stat : nat + string) (content : string + string) : ProviderLocal.Env :=
  ProviderLocal.mkEnv (fun p => "/etc/sing-box/" +:+ p) (fun _ => stat) (fun _ => content)
    (fun c => if String.eqb c "nodes" then inl [node] else inr "unknown format")
    (fun ps => inl (ProviderLocal.mkWatcher ps)).

Definition env_stat_fails : ProviderLocal.Env := env (inr "stat failed") (inl "nodes").
Definition env_read_fails : ProviderLocal.Env := env (inl 7) (inr "no such file").

End Demo.

(** ** Further scenarios *)

Module Cases.

Definition Rebuilt : Type := Selector * (list string * gmap string Outbound * error).

(** What a rebuild returns. *)
Definition rebuild (w : World) (s : Selector) (tag : string) : Rebuilt :=
  match filterOutbounds w s tag with
  | Return r => r
  | Panic _ => (s, ([], ∅, None))
  end.

Definition r_state (r : Rebuilt) : Selector := fst r.
Definition r_tags (r : Rebuilt) : list string := fst (fst (snd r)).
Definition r_map (r : Rebuilt) : gmap string Outbound := snd (fst (snd r)).

(** What an update returns. *)
Definition update (w : World) (s : Selector) (tag : string) : World * Selector * error :=
  match UpdateOutbounds w s tag with
  | Return r => r
  | Panic _ => (w, s, None)
  end.

(** One static outbound and one provider. *)
Definition w_mixed : World :=
  mkWorld [Demo.A; Demo.B; Demo.compatible] [Demo.providerA; Demo.providerB]
          (Demo.reports [Demo.pa1; Demo.pa2] [Demo.pb1]) (fun _ => false)
          (Some Demo.store0) [].

Definition sel_mixed : Selector :=
  NewSelector "select" ["A"] "" false None None ["providerA"] false.

Definition bound_mixed : Selector := bindProviders w_mixed sel_mixed.
Definition s_mixed : Selector := Demo.afterStart w_mixed sel_mixed.

(** The static outbound "A" is later removed from the manager. *)
Definition w_gone : World :=
  mkWorld [Demo.B; Demo.compatible] [Demo.providerA; Demo.providerB]
          (Demo.reports [Demo.pa1; Demo.pa2] [Demo.pb1]) (fun _ => false)
          (Some Demo.store0) [].

(** A static tag nobody registered; a default that only a provider has. *)
Definition sel_unresolved : Selector :=
  NewSelector "select" ["A"; "Z"] "" false None None [] false.

Definition sel_provider_default : Selector :=
  NewSelector "select" ["A"] "pa-1" false None None ["providerA"] false.

(** A second instance tagged "pa-1". *)
Definition pa1_again : Outbound := mkOutbound 13 "pa-1".

(** Nothing configured; bind-all. *)
Definition sel_nothing : Selector :=
  NewSelector "select" [] "" false None None [] false.

Definition sel_all : Selector :=
  NewSelector "select" [] "" false None None [] true.

Definition s_all : Selector := Demo.afterStart Demo.w_two sel_all.

(** A store that refuses writes. *)
Definition failing_store : CacheFile := mkCacheFile ∅ true.

Definition w_failing : World :=
  mkWorld [Demo.A; Demo.B; Demo.compatible] [] (fun _ => []) (fun _ => false)
          (Some failing_store) [].

Definition s_failing : Selector := Demo.afterStart w_failing Demo.sel_static.

(** No store at all; the user picks providerB's outbound, then providerA
    reloads. *)
Definition w_nostore : World :=
  mkWorld [Demo.compatible] [Demo.providerA; Demo.providerB]
          (Demo.reports [Demo.pa1; Demo.pa2] [Demo.pb1]) (fun _ => false) None [].

Definition s_nostore : Selector :=
  (SelectOutbound w_nostore (Demo.afterStart w_nostore Demo.sel_two) "pb-1").1.2.

Definition w_nostore_picked : World :=
  (SelectOutbound w_nostore (Demo.afterStart w_nostore Demo.sel_two) "pb-1").1.1.

(** With the store: the user has picked "pb-1", then providerA reloads. *)
Definition w_picked_shrunk : World :=
  mkWorld (w_outbounds Demo.w_picked) (w_providers Demo.w_picked)
          (Demo.reports [Demo.pa2] [Demo.pb1]) (fun _ => false)
          (w_cacheFile Demo.w_picked) (w_trace Demo.w_picked).

(** Patterns: "(" does not compile, anything else matches as a prefix. *)
Definition compile (pattern : string) : Regexp + string :=
  if String.eqb pattern "(" then inr "missing closing )"
  else inl (mkRegexp (String.prefix pattern)).

Definition options_plain : SelectorOutboundOptions :=
  mkSelectorOutboundOptions ["A"; "B"] [] false "" "" "" false.

Definition s_plain : Selector :=
  NewSelector "select" ["A"; "B"] "" false None None [] false.

(** A provider holding one parsed entry, last updated at time 3. *)
Definition held : ProviderLocal.ProviderLocal :=
  ProviderLocal.mkProviderLocal "local" [Demo.node] [Demo.node] 3 None false.

Definition constructed : ProviderLocal.ProviderLocal :=
  ProviderLocal.mkProviderLocal "local" [Demo.node] [Demo.node] 0
    (Some (ProviderLocal.mkWatcher ["/etc/sing-box/nodes.txt"])) false.

(** The rebuilds and updates the scenarios go through. *)
Definition R_mixed : Rebuilt := rebuild w_mixed bound_mixed "".
Definition R_shrunk : Rebuilt := rebuild Demo.w_shrunk Demo.s_two "providerA".
Definition U_shrunk : World * Selector * error :=
  update Demo.w_shrunk Demo.s_two "providerA".
Definition R_gone : Rebuilt := rebuild w_gone s_mixed "providerA".
Definition R_nostore : Rebuilt := rebuild w_nostore_picked s_nostore "providerA".
Definition R_picked : Rebuilt := rebuild w_picked_shrunk Demo.s_picked "providerA".

Definition picked_failing : World * Selector * bool :=
  SelectOutbound w_failing s_failing "B".

Definition store_picked : CacheFile := mkCacheFile {["select" := "pb-1"]} false.

Definition held_later : ProviderLocal.ProviderLocal :=
  ProviderLocal.mkProviderLocal "local" [Demo.node] [Demo.node] 7 None false.

(** providerA reports nothing when the Selector starts, and two outbounds
    later on. *)
Definition w_A_empty : World :=
  mkWorld [Demo.compatible] [Demo.providerA; Demo.providerB]
          (Demo.reports [] [Demo.pb1]) (fun _ => false) (Some Demo.store0) [].

Definition s_A_empty : Selector := Demo.afterStart w_A_empty Demo.sel_two.

End Cases.

(** ** Closed forms of the loops *)

Lemma insertAll_app ds1 ds2 m :
  insertAll (ds1 ++ ds2) m = insertAll ds2 (insertAll ds1 m).
Proof. unfold insertAll. apply foldl_app. Qed.

Lemma insertAll_lookup_mono ds : ∀ (m : gmap string Outbound) t,
  is_Some (m !! t) → is_Some (insertAll ds m !! t).
Proof.
  induction ds as [|d ds IH]; intros m t Hm; simpl; [done|].
  apply IH. destruct (decide (o_tag d = t)) as [-> | Hne].
  - rewrite lookup_insert_eq. eauto.
  - by rewrite lookup_insert_ne.
Qed.

Lemma insertAll_lookup_elem ds : ∀ (m : gmap string Outbound) d,
  d ∈ ds → is_Some (insertAll ds m !! o_tag d).
Proof.
  induction ds as [|d0 ds IH]; intros m d Hd; simpl.
  - by apply elem_of_nil in Hd.
  - apply elem_of_cons in Hd as [-> | Hd].
    + apply insertAll_lookup_mono. rewrite lookup_insert_eq. eauto.
    + by apply IH.
Qed.

Lemma keyedByTag_empty : keyedByTag ∅.
Proof. intros t d H. by rewrite lookup_empty in H. Qed.

Lemma keyedByTag_insert m d :
  keyedByTag m → keyedByTag (<[o_tag d := d]> m).
Proof.
  intros Hm t d' H. destruct (decide (o_tag d = t)) as [<- | Hne].
  - rewrite lookup_insert_eq in H. by inversion H.
  - rewrite lookup_insert_ne in H by done. by apply Hm.
Qed.

Lemma insertAll_keyedByTag ds : ∀ m, keyedByTag m → keyedByTag (insertAll ds m).
Proof.
  induction ds as [|d ds IH]; intros m Hm; simpl; [done|].
  apply IH. by apply keyedByTag_insert.
Qed.

Lemma includeRejects_excludeRejects_survives s t :
  survives s t = negb (includeRejects s t) && negb (excludeRejects s t).
Proof.
  unfold survives, includeRejects, excludeRejects.
  destruct (include s), (exclude s); simpl;
    repeat match goal with |- context [MatchString ?r t] => destruct (MatchString r t) end;
    reflexivity.
Qed.

Lemma fetchLoop_closed s ds : ∀ tags cache m,
  fetchLoop s ds tags cache m =
    (tags ++ map o_tag (kept s ds), cache ++ kept s ds, insertAll (kept s ds) m).
Proof.
  induction ds as [|d ds IH]; intros tags0 cache m; simpl.
  - by rewrite !app_nil_r.
  - unfold kept in *. simpl. rewrite includeRejects_excludeRejects_survives.
    destruct (includeRejects s (o_tag d)); simpl; [apply IH|].
    destruct (excludeRejects s (o_tag d)); simpl; [apply IH|].
    rewrite IH. by rewrite <- !app_assoc.
Qed.

Lemma cachedLoop_closed ds : ∀ tags m,
  cachedLoop ds tags m = (tags ++ map o_tag ds, insertAll ds m).
Proof.
  induction ds as [|d ds IH]; intros tags0 m; simpl.
  - by rewrite app_nil_r.
  - rewrite IH. by rewrite <- app_assoc.
Qed.

Lemma om_Outbound_tag w t d : om_Outbound w t = Some d → o_tag d = t.
Proof.
  unfold om_Outbound. intros H. apply find_some in H as [_ H].
  by apply String.eqb_eq in H.
Qed.

Lemma pm_Provider_registered w t p :
  pm_Provider w t = Some p → In p (pm_Providers w) ∧ p_tag p = t.
Proof.
  unfold pm_Provider, pm_Providers. intros H. apply find_some in H as [Hin H].
  split; [done|]. by apply String.eqb_eq in H.
Qed.

(** The guard of the cache branch fails for the just-changed tag and for a
    nil cache entry. *)
Lemma refetch_condition (tag pt : string) (cache : gmap string (list Outbound)) :
  pt = tag ∨ cacheNonNil cache pt = false →
  bool_decide (pt ≠ tag) && cacheNonNil cache pt = false.
Proof.
  intros [Heq | Hnil].
  - rewrite bool_decide_false; [done|]. intros H. by apply H.
  - rewrite Hnil. apply andb_false_r.
Qed.

(** One round of the provider loop, in each of its two branches. *)
Lemma providerLoop_cached w s tag pt rest tags m cache :
  pt ≠ tag → cacheNonNil cache pt = true →
  providerLoop w s tag (pt :: rest) tags m cache =
    providerLoop w s tag rest (tags ++ map o_tag (cacheEntry cache pt))
                 (insertAll (cacheEntry cache pt) m) cache.
Proof.
  intros Hne Hc. simpl. rewrite Hc.
  rewrite bool_decide_true by done. simpl.
  by rewrite cachedLoop_closed.
Qed.

Lemma providerLoop_fetched w s tag pt rest tags m cache p :
  pt = tag ∨ cacheNonNil cache pt = false →
  boundProvider s pt = Some p →
  providerLoop w s tag (pt :: rest) tags m cache =
    providerLoop w s tag rest
                 (tags ++ map o_tag (kept s (w_provider_outbounds w p)))
                 (insertAll (kept s (w_provider_outbounds w p)) m)
                 (<[pt := kept s (w_provider_outbounds w p)]> cache).
Proof.
  intros Hc Hp. simpl.
  rewrite (refetch_condition _ _ _ Hc).
  rewrite Hp, fetchLoop_closed. done.
Qed.

Lemma providerLoop_nil_provider w s tag pt rest tags m cache :
  pt = tag ∨ cacheNonNil cache pt = false →
  boundProvider s pt = None →
  providerLoop w s tag (pt :: rest) tags m cache =
    Panic "nil pointer dereference: provider.Outbounds()".
Proof.
  intros Hc Hp. simpl.
  rewrite (refetch_condition _ _ _ Hc).
  by rewrite Hp.
Qed.

(** Whatever the provider loop appends, it registers under its own tag. *)
Lemma providerLoop_shape w s tag pts : ∀ tags m cache tags' m' cache',
  providerLoop w s tag pts tags m cache = Return (tags', m', cache') →
  ∃ ds, tags' = tags ++ map o_tag ds ∧ m' = insertAll ds m.
Proof.
  induction pts as [|pt rest IH]; intros tags0 m cache tags' m' cache' H.
  - simpl in H. inversion H; subst. exists []. by rewrite app_nil_r.
  - destruct (bool_decide (pt ≠ tag) && cacheNonNil cache pt) eqn:Hb.
    + apply andb_prop in Hb as [Hne Hc]. apply bool_decide_eq_true in Hne.
      rewrite providerLoop_cached in H by done.
      apply IH in H as (ds & -> & ->).
      exists (cacheEntry cache pt ++ ds).
      by rewrite map_app, app_assoc, insertAll_app.
    + assert (pt = tag ∨ cacheNonNil cache pt = false) as Hc.
      { apply andb_false_iff in Hb as [Hb|Hb]; [left|by right].
        apply bool_decide_eq_false in Hb. by destruct (decide (pt = tag)). }
      destruct (boundProvider s pt) as [p|] eqn:Hp.
      * rewrite (providerLoop_fetched _ _ _ _ _ _ _ _ p) in H by done.
        apply IH in H as (ds & -> & ->).
        exists (kept s (w_provider_outbounds w p) ++ ds).
        by rewrite map_app, app_assoc, insertAll_app.
      * rewrite providerLoop_nil_provider in H by done. discriminate.
Qed.




Lemma cacheNonNil_insert_ne cache tag ds pt :
  pt ≠ tag → cacheNonNil (<[tag := ds]> cache) pt = cacheNonNil cache pt.
Proof.
  intros Hne. unfold cacheNonNil, cacheEntry.
  rewrite lookup_insert_ne; [done|]. intros Heq. by apply Hne.
Qed.


(** ** The candidate-set rebuild *)

(** C6.  For every include/exclude configuration and every provider list,
    the fetch loop appends exactly the outbounds whose tag satisfies
    (no include pattern or it matches include) and not (an exclude pattern
    is set and it matches exclude), in the provider's order: to the tag
    list, to the provider's cache entry and to the candidate map. *)
Theorem filtered_candidates_exact (s : Selector) (ds : list Outbound)
    (tags : list string) (cache : list Outbound) (m : gmap string Outbound) :
  fetchLoop s ds tags cache m =
    (tags ++ map o_tag (List.filter (fun d => survives s (o_tag d)) ds),
     cache ++ List.filter (fun d => survives s (o_tag d)) ds,
     insertAll (List.filter (fun d => survives s (o_tag d)) ds) m)
  ∧ ∀ t, In t (map o_tag (List.filter (fun d => survives s (o_tag d)) ds))
         ↔ ∃ d, In d ds ∧ o_tag d = t ∧ survives s t = true.
Proof.
  split; [apply fetchLoop_closed|].
  intros t. rewrite in_map_iff. split.
  - intros (d & Ht & Hd). apply filter_In in Hd as [Hin Hs].
    exists d. subst t. done.
  - intros (d & Hin & Ht & Hs). exists d. split; [done|].
    apply filter_In. subst t. done.
Qed.


(** C9.  When the rebuild has no static tag and the provider loop yields no
    candidate, [filterOutbounds] returns the single tag "Compatible", mapped
    to the outbound the manager holds under that tag. *)
Theorem compatible_fallback (w : World) (s : Selector) (tag : string)
    (m1 : gmap string Outbound) (c1 : gmap string (list Outbound)) (d : Outbound) :
  adapterDependencies s = [] →
  defaultTag s = "" →
  providerLoop w s tag (providerTags s) [] ∅ (outboundsCache s) = Return ([], m1, c1) →
  om_Outbound w "Compatible" = Some d →
  filterOutbounds w s tag =
    Return (set_outboundsCache c1 s, (["Compatible"], {["Compatible" := d]}, None)).
Proof.
  intros Hdeps Hdef Hloop Hom. unfold filterOutbounds.
  rewrite Hdeps, Hdef. simpl. rewrite Hloop. simpl.
  destruct (providerLoop_shape _ _ _ _ _ _ _ _ _ _ Hloop) as (ds & Htags & ->).
  destruct ds; [|discriminate]. simpl.
  rewrite Hom. rewrite (om_Outbound_tag _ _ _ Hom). simpl.
  by rewrite insert_empty.
Qed.

(** ** Selection resolution *)

Lemma persistedChoice_iff w s d :
  persistedChoice w s = Some d ↔ persistedCandidate w s d.
Proof.
  unfold persistedChoice, persistedCandidate. split.
  - case_bool_decide as Htag; [|done].
    destruct (cacheFile s) as [[]|]; [|done].
    destruct (w_cacheFile w) as [cf|]; [|done].
    case_bool_decide as Hsel; [|done].
    intros H. repeat split; try done. by exists cf.
  - intros (Htag & Href & cf & Hcf & Hsel & Hd).
    rewrite bool_decide_true, Href, Hcf by done.
    by rewrite bool_decide_true.
Qed.

Lemma persistedChoice_none w s :
  (∀ d, ¬ persistedCandidate w s d) → persistedChoice w s = None.
Proof.
  intros H. destruct (persistedChoice w s) as [d|] eqn:E; [|done].
  exfalso. apply (H d). by apply persistedChoice_iff.
Qed.

(** C2.  With a non-empty candidate list whose head is a candidate,
    [outboundSelect] resolves in strict priority order: the persisted choice
    of an addressable Selector when it is a candidate, whatever the default;
    else the configured default, with an error when it is not a candidate;
    else the first candidate in list order. *)
Theorem outboundSelect_priority (w : World) (s : Selector)
    (first : string) (rest : list string) (d0 : Outbound) :
  tags s = first :: rest →
  outbounds s !! first = Some d0 →
  (∀ S, persistedCandidate w s S → outboundSelect w s = Return (Some S, None))
  ∧ ((∀ S, ¬ persistedCandidate w s S) → defaultTag s ≠ "" →
     ∀ D, outbounds s !! defaultTag s = Some D →
          outboundSelect w s = Return (Some D, None))
  ∧ ((∀ S, ¬ persistedCandidate w s S) → defaultTag s ≠ "" →
     outbounds s !! defaultTag s = None →
     ∃ e, outboundSelect w s = Return (None, Some e))
  ∧ ((∀ S, ¬ persistedCandidate w s S) → defaultTag s = "" →
     outboundSelect w s = Return (Some d0, None)).
Proof.
  intros Htags Hfirst. unfold outboundSelect. repeat split.
  - intros S HS. apply persistedChoice_iff in HS. by rewrite HS.
  - intros Hno Hdef D HD. rewrite (persistedChoice_none _ _ Hno).
    rewrite bool_decide_true by done. by rewrite HD.
  - intros Hno Hdef HD. rewrite (persistedChoice_none _ _ Hno).
    rewrite bool_decide_true by done. rewrite HD. eauto.
  - intros Hno Hdef. rewrite (persistedChoice_none _ _ Hno).
    rewrite bool_decide_false by (intros H; by apply H).
    by rewrite Htags, Hfirst.
Qed.

(** ** Explicit selection *)

Lemma storeWrites_snoc tr e :
  storeWrites (tr ++ [e]) = storeWrites tr + (if isStore e then 1 else 0).
Proof.
  unfold storeWrites. rewrite List.filter_app, length_app. simpl.
  by destruct (isStore e).
Qed.

Lemma persistSelected_writes w s tag :
  storeWrites (w_trace (persistSelected w s tag)) =
    storeWrites (w_trace w)
    + (if bool_decide (adapterTag s ≠ "")
       then (match w_cacheFile w with Some _ => 1 | None => 0 end) else 0).
Proof.
  unfold persistSelected. case_bool_decide; [|lia].
  destruct (w_cacheFile w) as [cf|]; [|lia].
  destruct (StoreSelected cf (adapterTag s) tag) as [cf' [e|]]; simpl;
    rewrite ?storeWrites_snoc; simpl; lia.
Qed.

(** C5.  Selecting a candidate twice in a row: both calls return true; the
    second call changes neither the Selector nor the outside, so it adds no
    persistence write and no interrupt signal; the two calls together write
    the store at most once, and exactly once when the first call changes the
    selection of an addressable Selector that has a store; and a call on the
    already-active candidate has no side effect at all. *)
Theorem SelectOutbound_idempotent (w : World) (s : Selector) (tag : string)
    (d : Outbound) (w1 : World) (s1 : Selector) (r1 : bool) :
  outbounds s !! tag = Some d →
  SelectOutbound w s tag = (w1, s1, r1) →
  r1 = true
  ∧ selected s1 = Some d
  ∧ SelectOutbound w1 s1 tag = (w1, s1, true)
  ∧ interruptSignals (w_trace (SelectOutbound w1 s1 tag).1.1)
    = interruptSignals (w_trace w1)
  ∧ storeWrites (w_trace (SelectOutbound w1 s1 tag).1.1) = storeWrites (w_trace w1)
  ∧ storeWrites (w_trace w1) ≤ S (storeWrites (w_trace w))
  ∧ (selected s ≠ Some d → adapterTag s ≠ "" → is_Some (w_cacheFile w) →
     storeWrites (w_trace w1) = S (storeWrites (w_trace w)))
  ∧ (selected s = Some d → w1 = w ∧ s1 = s).
Proof.
  intros Hd Hcall. unfold SelectOutbound in Hcall. rewrite Hd in Hcall.
  assert (SelectOutbound w1 (set_selected (Some d) s) tag
          = (w1, set_selected (Some d) s, true)) as Hsecond.
  { unfold SelectOutbound. simpl. rewrite Hd.
    by rewrite bool_decide_true. }
  case_bool_decide as Hold; inversion Hcall; subst; clear Hcall;
    rewrite Hsecond.
  - repeat split; try done; try lia.
    destruct s; simpl in *. by subst.
  - repeat split; try done.
    + simpl. rewrite storeWrites_snoc, persistSelected_writes. simpl.
      case_bool_decide; [destruct (w_cacheFile w)|]; lia.
    + intros _ Htag [cf Hcf]. simpl.
      rewrite storeWrites_snoc, persistSelected_writes. simpl.
      rewrite bool_decide_true, Hcf by done. lia.
Qed.

(** ** Provider-driven reconciliation *)

Lemma filterOutbounds_frame w s tag s1 r :
  filterOutbounds w s tag = Return (s1, r) →
  ∃ c, s1 = set_outboundsCache c s.
Proof.
  unfold filterOutbounds. intros H.
  assert (s = set_outboundsCache (outboundsCache s) s) as Hs by (by destruct s).
  destruct (resolveDependencies w 0 (adapterDependencies s) ∅) as [m0|e].
  2:{ inversion H; subst. eauto. }
  destruct (bool_decide (defaultTag s ≠ "") && bool_decide (m0 !! defaultTag s = None)).
  { inversion H; subst. eauto. }
  destruct (providerLoop w s tag (providerTags s) (adapterDependencies s) m0
              (outboundsCache s)) as [[[t1 m1] c1]|]; [|done].
  simpl in H. destruct (compatibleFallback w t1 m1) as [[t2 m2]|]; [|done].
  simpl in H. inversion H; subst. eauto.
Qed.

Lemma anyOtherUpdating_true w tag ps :
  anyOtherUpdating w tag ps = true ↔
  ∃ p, In p ps ∧ p_tag p ≠ tag ∧ w_provider_updating w p = true.
Proof.
  induction ps as [|p ps IH]; simpl.
  - split; [done|]. by intros (p & [] & _).
  - destruct (bool_decide (p_tag p ≠ tag) && w_provider_updating w p) eqn:Hb.
    + split; [|done]. intros _. apply andb_prop in Hb as [H1 H2].
      apply bool_decide_eq_true in H1. exists p. auto.
    + rewrite IH. split.
      * intros (q & Hin & Hq). exists q. auto.
      * intros (q & [-> | Hin] & Hne & Hup).
        -- rewrite Hup, bool_decide_true in Hb by done. discriminate.
        -- exists q. auto.
Qed.

(** [Start] binds only providers the manager enumerates. *)
Lemma bindAllProviders_registered ps : ∀ pts bound pt p,
  (bindAllProviders ps pts bound).2 !! pt = Some (Some p) →
  bound !! pt = Some (Some p) ∨ In p ps.
Proof.
  induction ps as [|q ps IH]; intros pts bound pt p H; simpl in *; [by left|].
  apply IH in H as [H|H]; [|by right; right].
  destruct (decide (p_tag q = pt)) as [<- | Hne].
  - rewrite lookup_insert_eq in H. inversion H. right. by left.
  - rewrite lookup_insert_ne in H by done. by left.
Qed.

Lemma bindExplicitProviders_registered w pts : ∀ i bound pt p,
  bindExplicitProviders w i pts bound !! pt = Some (Some p) →
  bound !! pt = Some (Some p) ∨ In p (pm_Providers w).
Proof.
  induction pts as [|t pts IH]; intros i bound pt p H; simpl in *; [by left|].
  apply IH in H as [H|H]; [|by right].
  destruct (decide (t = pt)) as [<- | Hne].
  - rewrite lookup_insert_eq in H. inversion H as [Hp].
    right. by apply pm_Provider_registered in Hp as [Hp _].
  - rewrite lookup_insert_ne in H by done. by left.
Qed.

Lemma bindProviders_registered w s pt p :
  boundProvider (bindProviders w s) pt = Some p →
  boundProvider s pt = Some p ∨ In p (pm_Providers w).
Proof.
  unfold boundProvider, bindProviders.
  destruct (useAllProviders s).
  - destruct (bindAllProviders (pm_Providers w) [] (providers s)) as [pts bound] eqn:E.
    simpl. destruct (bound !! pt) as [[q|]|] eqn:Hq; try done.
    intros [= ->].
    assert ((bindAllProviders (pm_Providers w) [] (providers s)).2 !! pt
            = Some (Some p)) as H by (by rewrite E).
    apply bindAllProviders_registered in H as [H|H]; [|by right].
    left. by rewrite H.
  - simpl.
    destruct (bindExplicitProviders w 0 (providerTags s) (providers s) !! pt)
      as [[q|]|] eqn:Hq; try done.
    intros [= ->].
    apply bindExplicitProviders_registered in Hq as [H|H]; [|by right].
    left. by rewrite H.
Qed.

(** C3.  Debounce.  When the manager enumerates another provider that
    reports an update in progress (every provider [Start] binds is one the
    manager enumerates), [UpdateOutbounds] installs the rebuilt tag list and
    candidate map, leaves the active selection as it was and touches nothing
    outside; conversely a call that changes the active selection found no
    other provider updating. *)
Theorem UpdateOutbounds_debounce (w : World) (s : Selector) (tag : string)
    (s1 : Selector) (tags' : list string) (m' : gmap string Outbound) (err : error) :
  is_Some (providers s !! tag) →
  filterOutbounds w s tag = Return (s1, (tags', m', err)) →
  (∀ p, In p (pm_Providers w) → p_tag p ≠ tag → w_provider_updating w p = true →
        UpdateOutbounds w s tag = Return (w, set_outbounds m' (set_tags tags' s1), None)
        ∧ tags (set_outbounds m' (set_tags tags' s1)) = tags'
        ∧ outbounds (set_outbounds m' (set_tags tags' s1)) = m'
        ∧ selected (set_outbounds m' (set_tags tags' s1)) = selected s)
  ∧ (∀ w' s' e, UpdateOutbounds w s tag = Return (w', s', e) →
        selected s' ≠ selected s →
        ∀ p, In p (pm_Providers w) → p_tag p ≠ tag → w_provider_updating w p = false).
Proof.
  intros [b Hbound] Hfilter.
  assert (∀ p, In p (pm_Providers w) → p_tag p ≠ tag → w_provider_updating w p = true →
        UpdateOutbounds w s tag = Return (w, set_outbounds m' (set_tags tags' s1), None)
        ∧ tags (set_outbounds m' (set_tags tags' s1)) = tags'
        ∧ outbounds (set_outbounds m' (set_tags tags' s1)) = m'
        ∧ selected (set_outbounds m' (set_tags tags' s1)) = selected s) as Hfirst.
  { intros p Hin Hne Hup.
    assert (anyOtherUpdating w tag (pm_Providers w) = true) as Hany.
    { apply anyOtherUpdating_true. eauto. }
    unfold UpdateOutbounds. rewrite Hbound, Hfilter. simpl. rewrite Hany.
    repeat split.
    destruct (filterOutbounds_frame _ _ _ _ _ Hfilter) as [c ->]. done. }
  split; [done|].
  intros w' s' e Hcall Hchanged p Hin Hne.
  destruct (w_provider_updating w p) eqn:Hup; [|done].
  destruct (Hfirst p Hin Hne Hup) as (Hret & _ & _ & Hsel).
  rewrite Hret in Hcall. inversion Hcall; subst. by rewrite Hsel in Hchanged.
Qed.

(** ** Membership of the active selection *)

Lemma resolveDependencies_ok w deps : ∀ i m m',
  resolveDependencies w i deps m = inl m' →
  (keyedByTag m → keyedByTag m')
  ∧ (∀ t, is_Some (m !! t) → is_Some (m' !! t))
  ∧ (∀ t, t ∈ deps → is_Some (m' !! t)).
Proof.
  induction deps as [|tag deps IH]; intros i m m' H; simpl in H.
  - inversion H; subst. repeat split; try done.
    intros t Ht. by apply elem_of_nil in Ht.
  - destruct (om_Outbound w tag) as [detour|] eqn:Hom; [|done].
    apply IH in H as (Hk & Hmono & Hdeps).
    assert (o_tag detour = tag) as Htag by (by apply om_Outbound_tag in Hom).
    repeat split.
    + intros Hm. apply Hk. rewrite <- Htag. by apply keyedByTag_insert.
    + intros t Ht. apply Hmono. destruct (decide (tag = t)) as [-> | Hne].
      * rewrite lookup_insert_eq. eauto.
      * by rewrite lookup_insert_ne.
    + intros t Ht. apply elem_of_cons in Ht as [-> | Ht]; [|by apply Hdeps].
      apply Hmono. rewrite lookup_insert_eq. eauto.
Qed.

(** A rebuild that succeeds yields a non-empty tag list, every tag of which
    is a key of the map, a map keyed by tag, and a map that holds the
    default tag when one is configured. *)
Lemma filterOutbounds_ok w s tag s1 tags' m' :
  filterOutbounds w s tag = Return (s1, (tags', m', None)) →
  tags' ≠ []
  ∧ keyedByTag m'
  ∧ (∀ t, t ∈ tags' → is_Some (m' !! t))
  ∧ (defaultTag s ≠ "" → is_Some (m' !! defaultTag s)).
Proof.
  unfold filterOutbounds. intros H.
  destruct (resolveDependencies w 0 (adapterDependencies s) ∅) as [m0|e] eqn:Hdeps;
    [|done].
  apply resolveDependencies_ok in Hdeps as (Hk0 & _ & Hdeps).
  specialize (Hk0 keyedByTag_empty).
  destruct (bool_decide (defaultTag s ≠ "") && bool_decide (m0 !! defaultTag s = None))
    eqn:Hdef; [done|].
  destruct (providerLoop w s tag (providerTags s) (adapterDependencies s) m0
              (outboundsCache s)) as [[[t1 m1] c1]|] eqn:Hloop; [|done].
  apply providerLoop_shape in Hloop as (ds & -> & ->).
  simpl in H.
  assert (keyedByTag (insertAll ds m0)) as Hk1 by (by apply insertAll_keyedByTag).
  assert (∀ t, t ∈ adapterDependencies s ++ map o_tag ds →
               is_Some (insertAll ds m0 !! t)) as Hkeys.
  { intros t Ht. apply elem_of_app in Ht as [Ht|Ht].
    - apply insertAll_lookup_mono. by apply Hdeps.
    - apply list_elem_of_fmap in Ht as (d & -> & Hd).
      by apply insertAll_lookup_elem. }
  assert (defaultTag s ≠ "" → is_Some (insertAll ds m0 !! defaultTag s)) as Hdefault.
  { intros Hne. apply insertAll_lookup_mono.
    apply andb_false_iff in Hdef as [Hdef|Hdef].
    - apply bool_decide_eq_false in Hdef. by destruct Hdef.
    - apply bool_decide_eq_false in Hdef.
      by destruct (m0 !! defaultTag s); [eauto|]. }
  unfold compatibleFallback in H.
  destruct (adapterDependencies s ++ map o_tag ds) as [|t0 ts] eqn:Htags.
  - destruct (om_Outbound w "Compatible") as [detour|]; [|done].
    simpl in H. inversion H; subst. repeat split.
    + done.
    + by apply keyedByTag_insert.
    + intros t Ht. apply list_elem_of_singleton in Ht as ->.
      rewrite lookup_insert_eq. eauto.
    + intros Hne. destruct (decide (o_tag detour = defaultTag s)) as [<- | Hdiff].
      * rewrite lookup_insert_eq. eauto.
      * rewrite lookup_insert_ne by done. by apply Hdefault.
  - simpl in H. inversion H; subst. repeat split; done.
Qed.

(** On a state whose listed tags are keys of the map, a selection that
    resolves without error is a candidate. *)
Lemma outboundSelect_member w s o :
  (∀ t, t ∈ tags s → is_Some (outbounds s !! t)) →
  outboundSelect w s = Return (o, None) →
  ∃ d, o = Some d ∧ isCandidate s d.
Proof.
  intros Hkeys. unfold outboundSelect.
  destruct (persistedChoice w s) as [d|] eqn:Hp.
  - intros [= <-]. exists d. split; [done|].
    apply persistedChoice_iff in Hp as (_ & _ & cf & _ & _ & Hd). by eexists.
  - case_bool_decide as Hdef.
    + destruct (outbounds s !! defaultTag s) as [d|] eqn:Hd; [|done].
      intros [= <-]. exists d. split; [done|]. by eexists.
    + destruct (tags s) as [|first rest]; [done|].
      intros [= <-].
      destruct (Hkeys first) as [d Hd]; [apply elem_of_cons; by left|].
      exists d. split; [done|]. by eexists.
Qed.

(** On a state with a non-empty tag list that holds its default tag, the
    selection resolves. *)
Lemma outboundSelect_resolves w s :
  tags s ≠ [] →
  (defaultTag s ≠ "" → is_Some (outbounds s !! defaultTag s)) →
  ∃ o, outboundSelect w s = Return (o, None).
Proof.
  intros Htags Hdef. unfold outboundSelect.
  destruct (persistedChoice w s) as [d|]; [eauto|].
  case_bool_decide as Hne.
  - destruct (Hdef Hne) as [d ->]. eauto.
  - destruct (tags s); [done|eauto].
Qed.

Lemma anyOtherUpdating_false w tag :
  (∀ p, In p (pm_Providers w) → p_tag p ≠ tag → w_provider_updating w p = false) →
  anyOtherUpdating w tag (pm_Providers w) = false.
Proof.
  intros H. destruct (anyOtherUpdating w tag (pm_Providers w)) eqn:E; [|done].
  apply anyOtherUpdating_true in E as (p & Hin & Hne & Hup).
  rewrite (H p Hin Hne) in Hup. discriminate.
Qed.

Lemma SelectOutbound_candidate w s tag d :
  outbounds s !! tag = Some d →
  ∃ w', SelectOutbound w s tag = (w', set_selected (Some d) s, true).
Proof.
  intros Hd. unfold SelectOutbound. rewrite Hd.
  case_bool_decide; eauto.
Qed.

(** C1, as the code has it.  The active selection is a candidate after a
    successful [Start]; [SelectOutbound] keeps it one; and an
    [UpdateOutbounds] whose rebuild succeeds and which finds no other
    provider updating completes and leaves an active selection that is a
    candidate of the new map. *)
Theorem selection_membership :
  (∀ w s s', Start w s = Return (s', None) →
             ∃ d, selected s' = Some d ∧ isCandidate s' d)
  ∧ (∀ w s tag w' s' r, selectionInv s → SelectOutbound w s tag = (w', s', r) →
                        selectionInv s' ∧ outbounds s' = outbounds s)
  ∧ (∀ w s tag s1 tags' m',
       is_Some (providers s !! tag) →
       filterOutbounds w s tag = Return (s1, (tags', m', None)) →
       (∀ p, In p (pm_Providers w) → p_tag p ≠ tag → w_provider_updating w p = false) →
       ∃ w' s' d, UpdateOutbounds w s tag = Return (w', s', None)
                  ∧ outbounds s' = m' ∧ selected s' = Some d ∧ isCandidate s' d).
Proof.
  split; [|split].
  - intros w s s'. unfold Start.
    destruct (length (tags (bindProviders w s))
              + length (providerTags (bindProviders w s)) =? 0); [done|].
    destruct (filterOutbounds w (bindProviders w s) "")
      as [[s2 [[tags' m'] [e|]]]|] eqn:Hf; simpl; try done.
    apply filterOutbounds_ok in Hf as (_ & _ & Hkeys & _).
    destruct (outboundSelect w _) as [[o [e|]]|] eqn:Hsel; simpl; try done.
    intros [= <-]. apply outboundSelect_member in Hsel as (d & -> & t & Ht); [|done].
    exists d. split; [done|]. by exists t.
  - intros w s tag w' s' r Hinv. unfold SelectOutbound.
    destruct (outbounds s !! tag) as [d|] eqn:Hd.
    + intros Hcall.
      assert (s' = set_selected (Some d) s) as ->
        by (by case_bool_decide; inversion Hcall).
      split; [|done]. intros d' [= <-]. by exists tag.
    + intros [= <- <- <-]. done.
  - intros w s tag s1 tags' m' [b Hbound] Hfilter Hquiet.
    destruct (filterOutbounds_frame _ _ _ _ _ Hfilter) as [c Hs1].
    destruct (filterOutbounds_ok _ _ _ _ _ _ Hfilter) as (Hne & Hkeyed & Hkeys & Hdef).
    destruct (outboundSelect_resolves w (set_outbounds m' (set_tags tags' s1)))
      as [o Hsel]; [done| by subst s1 |].
    destruct (outboundSelect_member w (set_outbounds m' (set_tags tags' s1)) o)
      as (d & -> & t & Ht); [exact Hkeys | exact Hsel |].
    simpl in Ht. assert (o_tag d = t) as Htag by (by apply Hkeyed).
    destruct (SelectOutbound_candidate w (set_outbounds m' (set_tags tags' s1))
                (o_tag d) d) as [w' Hcall]; [by rewrite Htag|].
    exists w', (set_selected (Some d) (set_outbounds m' (set_tags tags' s1))), d.
    repeat split; try done.
    + unfold UpdateOutbounds. rewrite Hbound, Hfilter. simpl.
      rewrite (anyOtherUpdating_false _ _ Hquiet), Hsel. simpl.
      by rewrite Hcall.
    + by exists t.
Qed.

(** ** An unresolved explicit provider tag *)

Lemma bindExplicitProviders_lookup w pt : ∀ pts i bound,
  pt ∈ pts ∨ bound !! pt = Some (pm_Provider w pt) →
  bindExplicitProviders w i pts bound !! pt = Some (pm_Provider w pt).
Proof.
  induction pts as [|t pts IH]; intros i bound H; simpl.
  - destruct H as [H|H]; [by apply elem_of_nil in H|done].
  - apply IH. destruct (decide (t = pt)) as [-> | Hne].
    + right. by rewrite lookup_insert_eq.
    + destruct H as [H|H].
      * apply elem_of_cons in H as [-> | H]; [done|by left].
      * right. by rewrite lookup_insert_ne.
Qed.

(** The provider loop dereferences a nil provider as soon as it reaches a
    tag bound to none, and it reaches it when no cache entry shields it. *)
Lemma providerLoop_unbound_panics w s tag : ∀ pts tags m cache,
  (∀ k, boundProvider s k = None → cacheNonNil cache k = false) →
  (∃ pt, pt ∈ pts ∧ boundProvider s pt = None) →
  ∃ msg, providerLoop w s tag pts tags m cache = Panic msg.
Proof.
  induction pts as [|pt0 rest IH]; intros tags0 m cache Hinv (pt & Hin & Hnone).
  - by apply elem_of_nil in Hin.
  - destruct (bool_decide (pt0 ≠ tag) && cacheNonNil cache pt0) eqn:Hb.
    + apply andb_prop in Hb as [Hne Hc]. apply bool_decide_eq_true in Hne.
      rewrite providerLoop_cached by done. apply IH; [done|].
      exists pt. split; [|done].
      apply elem_of_cons in Hin as [-> | Hin]; [|done].
      rewrite (Hinv _ Hnone) in Hc. discriminate.
    + assert (pt0 = tag ∨ cacheNonNil cache pt0 = false) as Hc.
      { apply andb_false_iff in Hb as [Hb|Hb]; [left|by right].
        apply bool_decide_eq_false in Hb. by destruct (decide (pt0 = tag)). }
      destruct (boundProvider s pt0) as [p|] eqn:Hp.
      * rewrite (providerLoop_fetched _ _ _ _ _ _ _ _ p) by done.
        assert (pt ≠ pt0) as Hdiff by (intros ->; congruence).
        apply IH.
        -- intros k Hk. rewrite cacheNonNil_insert_ne; [by apply Hinv|].
           intros ->. congruence.
        -- exists pt. split; [|done].
           apply elem_of_cons in Hin as [-> | Hin]; done.
      * rewrite providerLoop_nil_provider by done. eauto.
Qed.

(** A fresh Selector with an explicit provider tag the manager does not
    hold never starts: [Start] returns an error or panics. *)
Lemma Start_unresolved_provider_fails w s pt :
  useAllProviders s = false →
  outboundsCache s = ∅ →
  pt ∈ providerTags s →
  pm_Provider w pt = None →
  ∀ s', Start w s ≠ Return (s', None).
Proof.
  intros Hall Hfresh Hin Hmiss s'. unfold Start.
  assert (bindProviders w s
          = set_providers (bindExplicitProviders w 0 (providerTags s) (providers s)) s)
    as -> by (unfold bindProviders; by rewrite Hall).
  set (s1 := set_providers _ s).
  assert (boundProvider s1 pt = None) as Hnone.
  { unfold boundProvider, s1. simpl.
    rewrite (bindExplicitProviders_lookup w pt) by (by left). by rewrite Hmiss. }
  destruct (length (tags s1) + length (providerTags s1) =? 0); [done|].
  unfold filterOutbounds.
  destruct (resolveDependencies w 0 (adapterDependencies s1) ∅) as [m0|e]; [|done].
  destruct (bool_decide (defaultTag s1 ≠ "") && bool_decide (m0 !! defaultTag s1 = None));
    [done|].
  destruct (providerLoop_unbound_panics w s1 "" (providerTags s1)
              (adapterDependencies s1) m0 (outboundsCache s1)) as [msg ->].
  - intros k _. unfold s1. simpl. rewrite Hfresh.
    unfold cacheNonNil, cacheEntry. by rewrite lookup_empty.
  - exists pt. split; [exact Hin|exact Hnone].
  - done.
Qed.

(** C8, as the code has it.  Construction returns an error and no provider
    when the tag is empty, the path is empty, the file cannot be read or its
    content cannot be parsed; a provider is returned only with a nil error,
    a non-empty tag and path, and the parsed content of the file as its
    held list; and no call returns neither a provider nor an error.  The
    outcome of [os.Stat] is not among the conditions. *)
Theorem NewProviderLocal_load_or_fail (env : ProviderLocal.Env) (tag path : string) :
  (tag = "" ∨ path = ""
   ∨ (∃ e, ProviderLocal.env_ReadFile env (ProviderLocal.env_resolve env path) = inr e)
   ∨ (∃ c e, ProviderLocal.env_ReadFile env (ProviderLocal.env_resolve env path) = inl c
             ∧ ProviderLocal.env_ParseSubscription env c = inr e) →
   ∃ e, ProviderLocal.NewProviderLocal env tag path = (None, Some e))
  ∧ (∀ p err, ProviderLocal.NewProviderLocal env tag path = (Some p, err) →
       err = None ∧ tag ≠ "" ∧ path ≠ ""
       ∧ ∃ c opts,
           ProviderLocal.env_ReadFile env (ProviderLocal.env_resolve env path) = inl c
           ∧ ProviderLocal.env_ParseSubscription env c = inl opts
           ∧ ProviderLocal.lastOutOpts p = opts
           ∧ ProviderLocal.adapterOutbounds p = opts)
  ∧ (∀ err, ProviderLocal.NewProviderLocal env tag path = (None, err) → is_Some err).
Proof.
  unfold ProviderLocal.NewProviderLocal, ProviderLocal.reloadFile.
  split; [|split].
  - intros H. case_bool_decide as Htag; [eauto|].
    case_bool_decide as Hpath; [eauto|].
    destruct H as [H | [H | [[e He] | (c & e & Hc & He)]]]; try done.
    + rewrite He. eauto.
    + rewrite Hc, He. eauto.
  - intros p err. case_bool_decide as Htag; [done|].
    case_bool_decide as Hpath; [done|].
    destruct (ProviderLocal.env_ReadFile env _) as [c|e]; [|done].
    destruct (ProviderLocal.env_ParseSubscription env c) as [opts|e] eqn:Hparse;
      [|done].
    destruct (ProviderLocal.env_NewWatcher env _) as [wt|e]; [|done].
    intros [= <- <-]. repeat split; try done. exists c, opts.
    destruct (ProviderLocal.env_Stat env _); simpl; auto.
  - intros err. case_bool_decide as Htag; [intros [= <-]; eauto|].
    case_bool_decide as Hpath; [intros [= <-]; eauto|].
    destruct (ProviderLocal.env_ReadFile env _) as [c|e]; [|intros [= <-]; eauto].
    destruct (ProviderLocal.env_ParseSubscription env c) as [opts|e];
      [|intros [= <-]; eauto].
    destruct (ProviderLocal.env_NewWatcher env _) as [wt|e]; [done|].
    intros [= <-]; eauto.
Qed.

(** ** The scenarios, run *)

(** End to end: static tags ["A"; "B"], no default, no provider. *)
Example static_starts_on_first : Now Demo.s_static = Return "A".
Proof. vm_compute. reflexivity. Qed.

Example static_select_B :
  Now Demo.s_static_B = Return "B"
  ∧ (λ cf, LoadSelected cf "select") <$> w_cacheFile Demo.w_static_B = Some "B"
  ∧ w_trace Demo.w_static_B = [EvStoreSelected "select" "B"; EvInterrupt false].
Proof. vm_compute. done. Qed.

Example static_restart_keeps_B :
  Now (Demo.afterStart Demo.w_static_B Demo.sel_static) = Return "B".
Proof. vm_compute. reflexivity. Qed.

Example filtered_start :
  tags (Demo.afterStart Demo.w_two Demo.sel_filtered) = ["pa-1"]
  ∧ outboundsCache (Demo.afterStart Demo.w_two Demo.sel_filtered)
    = {["providerA" := [Demo.pa1]; "providerB" := []]}.
Proof. vm_compute. done. Qed.

Example shrunk_provider_reselects :
  ∃ w' s', UpdateOutbounds Demo.w_shrunk Demo.s_two "providerA" = Return (w', s', None)
           ∧ tags s' = ["pa-2"; "pb-1"] ∧ selected s' = Some Demo.pa2.
Proof. eexists _, _. vm_compute. done. Qed.

Example empty_provider_serves_compatible :
  tags (Demo.afterStart Demo.w_empty Demo.sel_one) = ["Compatible"]
  ∧ Now (Demo.afterStart Demo.w_empty Demo.sel_one) = Return "Compatible".
Proof. vm_compute. done. Qed.

Example persisted_choice_beats_default :
  Now Demo.s_persisted = Return "B" ∧ defaultTag Demo.s_persisted = "A".
Proof. vm_compute. done. Qed.

(** C1, as stated, fails on a debounced update.  providerB's outbound is
    the active selection; providerB reloads to an empty list while providerA
    reports an update in progress; [UpdateOutbounds "providerB"] installs a
    candidate map without that outbound and leaves it selected. *)
Lemma debounced_update_breaks_membership :
  selectionInv Demo.s_picked
  ∧ UpdateOutbounds Demo.w_dropped Demo.s_picked "providerB"
    = Return (Demo.w_dropped, Demo.s_debounced, None)
  ∧ selected Demo.s_debounced = Some Demo.pb1
  ∧ ¬ isCandidate Demo.s_debounced Demo.pb1.
Proof.
  split; [|split; [|split]].
  - intros d Hd.
    assert (selected Demo.s_picked = Some Demo.pb1) as Hs by (vm_compute; reflexivity).
    rewrite Hs in Hd. inversion Hd; subst. exists "pb-1". vm_compute. reflexivity.
  - vm_compute. reflexivity.
  - vm_compute. reflexivity.
  - intros [t Ht].
    assert (outbounds Demo.s_debounced
            = <["pa-1" := Demo.pa1]> (<["pa-2" := Demo.pa2]> ∅)) as Hm
      by (vm_compute; reflexivity).
    rewrite Hm in Ht.
    apply lookup_insert_Some in Ht as [[_ Ht] | [_ Ht]]; [discriminate|].
    apply lookup_insert_Some in Ht as [[_ Ht] | [_ Ht]]; [discriminate|].
    by rewrite lookup_empty in Ht.
Qed.

Lemma selection_membership_witness :
  ∃ d, selected Demo.s_two = Some d ∧ isCandidate Demo.s_two d.
Proof.
  apply (proj1 selection_membership Demo.w_two Demo.sel_two).
  vm_compute. reflexivity.
Defined.

Lemma outboundSelect_priority_witness :
  outboundSelect Demo.w_persisted Demo.s_persisted = Return (Some Demo.B, None).
Proof.
  refine (proj1 (outboundSelect_priority Demo.w_persisted Demo.s_persisted
                   "A" ["B"] Demo.A _ _) Demo.B _).
  - vm_compute. reflexivity.
  - vm_compute. reflexivity.
  - split; [|split].
    + vm_compute. discriminate.
    + vm_compute. reflexivity.
    + exists (mkCacheFile {["select" := "B"]} false).
      split; [vm_compute; reflexivity|].
      split; [vm_compute; discriminate | vm_compute; reflexivity].
Defined.

Lemma UpdateOutbounds_debounce_witness :
  UpdateOutbounds Demo.w_dropped Demo.s_picked "providerB"
  = Return (Demo.w_dropped, Demo.s_debounced, None).
Proof.
  refine (proj1 (proj1 (UpdateOutbounds_debounce Demo.w_dropped Demo.s_picked
                          "providerB" (fst Demo.rebuilt) (fst (fst (snd Demo.rebuilt)))
                          (snd (fst (snd Demo.rebuilt))) (snd (snd Demo.rebuilt)) _ _)
                   Demo.providerA _ _ _)).
  - exists (Some Demo.providerB). vm_compute. reflexivity.
  - vm_compute. reflexivity.
  - vm_compute. left. reflexivity.
  - vm_compute. discriminate.
  - vm_compute. reflexivity.
Defined.


Lemma SelectOutbound_idempotent_witness :
  SelectOutbound Demo.w_picked Demo.s_picked "pb-1"
  = (Demo.w_picked, Demo.s_picked, true).
Proof.
  refine (proj1 (proj2 (proj2 (SelectOutbound_idempotent Demo.w_two Demo.s_two "pb-1"
                                 Demo.pb1 Demo.w_picked Demo.s_picked true _ _))));
    vm_compute; reflexivity.
Defined.

Lemma compatible_fallback_witness :
  filterOutbounds Demo.w_empty Demo.s_bound ""
  = Return (set_outboundsCache {["providerA" := []]} Demo.s_bound,
            (["Compatible"], {["Compatible" := Demo.compatible]}, None)).
Proof.
  apply (compatible_fallback Demo.w_empty Demo.s_bound "" ∅ {["providerA" := []]}
           Demo.compatible); vm_compute; reflexivity.
Defined.

(** C7.  With the explicit provider tag "missing", which the manager does
    not hold, [Start] binds a nil provider and dereferences it while
    building the candidate set. *)
Theorem Start_unresolved_provider_panics :
  pm_Provider Demo.w_static "missing" = None
  ∧ Start Demo.w_static Demo.sel_missing
    = Panic "nil pointer dereference: provider.Outbounds()".
Proof. split; vm_compute; reflexivity. Qed.

(** C8, as stated, fails on the stat step: with a file that cannot be
    stat'ed but can be read and parsed, construction succeeds. *)
Lemma stat_failure_does_not_fail_construction :
  ProviderLocal.env_Stat Demo.env_stat_fails
    (ProviderLocal.env_resolve Demo.env_stat_fails "nodes.txt") = inr "stat failed"
  ∧ ∃ p, ProviderLocal.NewProviderLocal Demo.env_stat_fails "local" "nodes.txt"
         = (Some p, None).
Proof. split; [vm_compute; reflexivity|]. eexists. vm_compute. reflexivity. Qed.

Lemma NewProviderLocal_load_or_fail_witness :
  ∃ e, ProviderLocal.NewProviderLocal Demo.env_read_fails "local" "nodes.txt"
       = (None, Some e).
Proof.
  apply (proj1 (NewProviderLocal_load_or_fail Demo.env_read_fails "local" "nodes.txt")).
  right. right. left. exists "no such file". vm_compute. reflexivity.
Defined.

(** ** The rebuild, further *)

Lemma resolveDependencies_resolves w deps : ∀ i m,
  (∀ t, t ∈ deps → is_Some (om_Outbound w t)) →
  ∃ m', resolveDependencies w i deps m = inl m'.
Proof.
  induction deps as [|tag deps IH]; intros i m Hall; simpl; [eauto|].
  destruct (Hall tag) as [d ->]; [apply elem_of_cons; by left|].
  apply IH. intros t Ht. apply Hall. apply elem_of_cons. by right.
Qed.

Lemma resolveDependencies_unresolved w deps t : ∀ i m,
  t ∈ deps → om_Outbound w t = None →
  ∃ e, resolveDependencies w i deps m = inr e.
Proof.
  induction deps as [|tag deps IH]; intros i m Hin Hmiss; simpl.
  - by apply elem_of_nil in Hin.
  - destruct (om_Outbound w tag) as [d|] eqn:Hd; [|eauto].
    apply IH; [|done]. apply elem_of_cons in Hin as [-> | Hin]; [congruence|done].
Qed.

Lemma resolveDependencies_keys w deps : ∀ i m m' t,
  resolveDependencies w i deps m = inl m' →
  is_Some (m' !! t) → is_Some (m !! t) ∨ t ∈ deps.
Proof.
  induction deps as [|tag deps IH]; intros i m m' t H Ht; simpl in H.
  - inversion H; subst. by left.
  - destruct (om_Outbound w tag) as [d|]; [|done].
    destruct (IH _ _ _ _ H Ht) as [Hm|Hin].
    + destruct (decide (tag = t)) as [-> | Hne].
      * right. apply elem_of_cons. by left.
      * rewrite lookup_insert_ne in Hm by done. by left.
    + right. apply elem_of_cons. by right.
Qed.

Lemma insertAll_keys ds : ∀ (m : gmap string Outbound) t,
  is_Some (insertAll ds m !! t) → is_Some (m !! t) ∨ t ∈ map o_tag ds.
Proof.
  induction ds as [|d ds IH]; intros m t Ht; simpl in *; [by left|].
  destruct (IH _ _ Ht) as [Hm|Hin].
  - destruct (decide (o_tag d = t)) as [<- | Hne].
    + right. apply elem_of_cons. by left.
    + rewrite lookup_insert_ne in Hm by done. by left.
  - right. apply elem_of_cons. by right.
Qed.

Lemma insertAll_lookup_notin ds : ∀ (m : gmap string Outbound) t,
  t ∉ map o_tag ds → insertAll ds m !! t = m !! t.
Proof.
  induction ds as [|d ds IH]; intros m t Ht; simpl in *; [done|].
  apply not_elem_of_cons in Ht as [Hne Ht].
  rewrite IH by done. by rewrite lookup_insert_ne.
Qed.

(** How a successful rebuild is put together. *)
Lemma filterOutbounds_shape w s tag s1 tags' m' :
  filterOutbounds w s tag = Return (s1, (tags', m', None)) →
  ∃ m0 ds c1,
    resolveDependencies w 0 (adapterDependencies s) ∅ = inl m0
    ∧ providerLoop w s tag (providerTags s) (adapterDependencies s) m0 (outboundsCache s)
      = Return (adapterDependencies s ++ map o_tag ds, insertAll ds m0, c1)
    ∧ s1 = set_outboundsCache c1 s
    ∧ ((tags' = adapterDependencies s ++ map o_tag ds ∧ tags' ≠ []
        ∧ m' = insertAll ds m0)
       ∨ (adapterDependencies s = [] ∧ ds = []
          ∧ ∃ d, om_Outbound w "Compatible" = Some d
                 ∧ tags' = ["Compatible"] ∧ m' = <["Compatible" := d]> m0)).
Proof.
  unfold filterOutbounds. intros H.
  destruct (resolveDependencies w 0 (adapterDependencies s) ∅) as [m0|e] eqn:Hdeps;
    [|done].
  destruct (bool_decide (defaultTag s ≠ "") && bool_decide (m0 !! defaultTag s = None));
    [done|].
  destruct (providerLoop w s tag (providerTags s) (adapterDependencies s) m0
              (outboundsCache s)) as [[[t1 m1] c1]|] eqn:Hloop; [|done].
  destruct (providerLoop_shape _ _ _ _ _ _ _ _ _ _ Hloop) as (ds & -> & ->).
  simpl in H. exists m0, ds, c1. split; [done|]. split; [done|].
  unfold compatibleFallback in H.
  destruct (adapterDependencies s ++ map o_tag ds) as [|t0 ts] eqn:Htags.
  - destruct (om_Outbound w "Compatible") as [d|] eqn:Hc; [|done].
    simpl in H. inversion H; subst. split; [done|]. right.
    apply app_eq_nil in Htags as [Hd Hds]. apply map_eq_nil in Hds.
    repeat split; try done. exists d.
    rewrite (om_Outbound_tag _ _ _ Hc). subst ds. done.
  - simpl in H. inversion H; subst. split; [done|]. left. done.
Qed.

Lemma resolveDependencies_nil_empty w i m0 :
  resolveDependencies w i [] ∅ = inl m0 → m0 = ∅.
Proof. simpl. by intros [= <-]. Qed.

(** How the provider loop leaves the cache: entries of tags it does not
    visit are untouched, and the just-changed provider's entry holds the
    filtered list the provider reports. *)
Lemma providerLoop_cache w s tag p pts : ∀ tags m cache tags' m' cache',
  providerLoop w s tag pts tags m cache = Return (tags', m', cache') →
  (∀ k, k ∉ pts → cache' !! k = cache !! k)
  ∧ (tag ∈ pts → boundProvider s tag = Some p →
     cache' !! tag = Some (kept s (w_provider_outbounds w p))).
Proof.
  induction pts as [|pt rest IH]; intros tags0 m cache tags' m' cache' H.
  - simpl in H. inversion H; subst. split; [done|].
    intros Hin. by apply elem_of_nil in Hin.
  - destruct (bool_decide (pt ≠ tag) && cacheNonNil cache pt) eqn:Hb.
    + apply andb_prop in Hb as [Hne Hc]. apply bool_decide_eq_true in Hne.
      rewrite providerLoop_cached in H by done.
      apply IH in H as [Hother Htag]. split.
      * intros k Hk. apply not_elem_of_cons in Hk as [_ Hk]. by apply Hother.
      * intros Hin Hp. apply Htag; [|done].
        apply elem_of_cons in Hin as [-> | Hin]; done.
    + assert (pt = tag ∨ cacheNonNil cache pt = false) as Hc.
      { apply andb_false_iff in Hb as [Hb|Hb]; [left|by right].
        apply bool_decide_eq_false in Hb. by destruct (decide (pt = tag)). }
      destruct (boundProvider s pt) as [p0|] eqn:Hp0.
      2:{ rewrite providerLoop_nil_provider in H by done. discriminate. }
      rewrite (providerLoop_fetched _ _ _ _ _ _ _ _ p0) in H by done.
      apply IH in H as [Hother Htag]. split.
      * intros k Hk. apply not_elem_of_cons in Hk as [Hne Hk].
        rewrite Hother by done. by rewrite lookup_insert_ne.
      * intros Hin Hp. destruct (decide (tag ∈ rest)) as [Hrest|Hrest].
        -- by apply Htag.
        -- apply elem_of_cons in Hin as [-> | Hin]; [|done].
           rewrite Hother by done. rewrite lookup_insert_eq. congruence.
Qed.

(** X1.  Static tags come first: the tag list of a successful rebuild starts
    with the configured static tags, in their configured order, whatever
    the providers contribute, and is never empty. *)
Theorem filterOutbounds_static_first (w : World) (s s1 : Selector) (tag : string)
    (tags' : list string) (m' : gmap string Outbound) :
  filterOutbounds w s tag = Return (s1, (tags', m', None)) →
  tags' ≠ [] ∧ ∃ provided, tags' = adapterDependencies s ++ provided.
Proof.
  intros H. destruct (filterOutbounds_shape _ _ _ _ _ _ H)
    as (m0 & ds & c1 & _ & _ & _ & [(-> & Hne & _) | (Hd & _ & d & _ & -> & _)]).
  - split; [done|]. eauto.
  - split; [done|]. rewrite Hd. eauto.
Qed.

Lemma filterOutbounds_listed_iff_key w s tag s1 tags' m' :
  filterOutbounds w s tag = Return (s1, (tags', m', None)) →
  ∀ t, t ∈ tags' ↔ is_Some (m' !! t).
Proof.
  intros H t. split.
  - by apply (filterOutbounds_ok _ _ _ _ _ _ H).
  - destruct (filterOutbounds_shape _ _ _ _ _ _ H)
      as (m0 & ds & c1 & Hdeps & _ & _
          & [(-> & _ & ->) | (Hd & _ & d & _ & -> & ->)]).
    + intros Ht. apply elem_of_app.
      destruct (insertAll_keys _ _ _ Ht) as [Hm|Hin]; [|by right].
      destruct (resolveDependencies_keys _ _ _ _ _ _ Hdeps Hm) as [Hm0|Hin];
        [|by left].
      rewrite lookup_empty in Hm0. by destruct Hm0.
    + rewrite Hd in Hdeps. apply resolveDependencies_nil_empty in Hdeps as ->.
      intros [x Hx]. apply lookup_insert_Some in Hx as [[<- _] | [_ Hx]].
      * apply list_elem_of_singleton. done.
      * by rewrite lookup_empty in Hx.
Qed.

(** X2.  The tag list and the candidate map of a successful rebuild agree:
    a tag is listed exactly when the map has an entry for it, and every
    entry sits under its own tag. *)
Theorem filterOutbounds_tags_are_keys (w : World) (s s1 : Selector) (tag : string)
    (tags' : list string) (m' : gmap string Outbound) :
  filterOutbounds w s tag = Return (s1, (tags', m', None)) →
  (∀ t, t ∈ tags' ↔ is_Some (m' !! t))
  ∧ (∀ t d, m' !! t = Some d → o_tag d = t).
Proof.
  intros H. split.
  - by apply (filterOutbounds_listed_iff_key w s tag s1).
  - by apply (filterOutbounds_ok _ _ _ _ _ _ H).
Qed.

(** X3.  A static tag the outbound manager does not hold fails the rebuild
    with an error before any provider is consulted: nothing is returned and
    the cache stays as it was. *)
Theorem filterOutbounds_unresolved_static (w : World) (s : Selector) (tag t : string) :
  t ∈ adapterDependencies s →
  om_Outbound w t = None →
  ∃ e, filterOutbounds w s tag = Return (s, ([], ∅, Some e)).
Proof.
  intros Hin Hmiss. unfold filterOutbounds.
  destruct (resolveDependencies_unresolved w _ t 0 ∅ Hin Hmiss) as [e ->]. eauto.
Qed.

(** X4.  The default tag has to be one of the static tags: with every
    static tag resolved and a default that is not among them, the rebuild
    fails with "default outbound not found", even when a provider would
    supply an outbound of that tag. *)
Theorem filterOutbounds_default_must_be_static (w : World) (s : Selector) (tag : string) :
  (∀ t, t ∈ adapterDependencies s → is_Some (om_Outbound w t)) →
  defaultTag s ≠ "" →
  defaultTag s ∉ adapterDependencies s →
  filterOutbounds w s tag
  = Return (s, ([], ∅, Some ("default outbound not found: " +:+ defaultTag s))).
Proof.
  intros Hall Hdef Hnot. unfold filterOutbounds.
  destruct (resolveDependencies_resolves w (adapterDependencies s) 0 ∅ Hall)
    as [m0 Hm0].
  rewrite Hm0.
  assert (m0 !! defaultTag s = None) as Hnone.
  { destruct (m0 !! defaultTag s) as [d|] eqn:Hd; [|done]. exfalso.
    destruct (resolveDependencies_keys _ _ _ _ _ (defaultTag s) Hm0) as [H|H];
      [by rewrite Hd | | done].
    rewrite lookup_empty in H. by destruct H. }
  by rewrite !bool_decide_true.
Qed.

(** X5.  On a tag collision the later entry wins: an outbound that survives
    the patterns, with no later survivor of the same tag in the provider's
    list, is the one the candidate map holds under its tag after the fetch
    loop, whatever the map held there before. *)
Theorem fetchLoop_later_entry_wins (s : Selector) (before after : list Outbound)
    (d : Outbound) (tags : list string) (cache : list Outbound)
    (m : gmap string Outbound) :
  survives s (o_tag d) = true →
  (∀ d', d' ∈ after → survives s (o_tag d') = true → o_tag d' ≠ o_tag d) →
  (fetchLoop s (before ++ d :: after) tags cache m).2 !! o_tag d = Some d.
Proof.
  intros Hd Hafter. rewrite fetchLoop_closed. simpl.
  unfold kept. rewrite List.filter_app. simpl. rewrite Hd.
  rewrite insertAll_app. simpl.
  rewrite insertAll_lookup_notin; [by rewrite lookup_insert_eq|].
  intros Hin. apply list_elem_of_fmap in Hin as (d' & Htag & Hd').
  apply list_elem_of_In, filter_In in Hd' as [Hin' Hs].
  apply (Hafter d'); [by apply list_elem_of_In|done|done].
Qed.

(** X6.  A successful rebuild leaves the just-changed provider's cache
    entry equal to the filtered list that provider reports now, and leaves
    the entries of tags that are not bound provider tags untouched. *)
Theorem filterOutbounds_refreshes_changed_cache (w : World) (s s1 : Selector)
    (tag : string) (p : Provider) (tags' : list string) (m' : gmap string Outbound) :
  filterOutbounds w s tag = Return (s1, (tags', m', None)) →
  tag ∈ providerTags s →
  boundProvider s tag = Some p →
  outboundsCache s1 !! tag = Some (kept s (w_provider_outbounds w p))
  ∧ ∀ k, k ∉ providerTags s → outboundsCache s1 !! k = outboundsCache s !! k.
Proof.
  intros H Hin Hp.
  destruct (filterOutbounds_shape _ _ _ _ _ _ H) as (m0 & ds & c1 & _ & Hloop & -> & _).
  destruct (providerLoop_cache w s tag p _ _ _ _ _ _ _ Hloop) as [Hother Htag].
  simpl. split; [by apply Htag|done].
Qed.

(** ** Start, further *)

Lemma bindProviders_config w s :
  adapterTag (bindProviders w s) = adapterTag s
  ∧ adapterDependencies (bindProviders w s) = adapterDependencies s
  ∧ tags (bindProviders w s) = tags s
  ∧ defaultTag (bindProviders w s) = defaultTag s
  ∧ outbounds (bindProviders w s) = outbounds s
  ∧ outboundsCache (bindProviders w s) = outboundsCache s
  ∧ selected (bindProviders w s) = selected s.
Proof.
  unfold bindProviders. destruct (useAllProviders s); [|done].
  by destruct (bindAllProviders (pm_Providers w) [] (providers s)).
Qed.

Lemma bindAllProviders_tags ps : ∀ pts bound,
  (bindAllProviders ps pts bound).1 = pts ++ map p_tag ps.
Proof.
  induction ps as [|p ps IH]; intros pts bound; simpl.
  - by rewrite app_nil_r.
  - rewrite IH. by rewrite <- app_assoc.
Qed.

Lemma bindAllProviders_keeps ps : ∀ pts bound k,
  (∃ q, bound !! k = Some (Some q)) →
  ∃ q, (bindAllProviders ps pts bound).2 !! k = Some (Some q).
Proof.
  induction ps as [|p ps IH]; intros pts bound k Hk; simpl; [done|].
  apply IH. destruct (decide (p_tag p = k)) as [<- | Hne].
  - exists p. by rewrite lookup_insert_eq.
  - by rewrite lookup_insert_ne.
Qed.

Lemma bindAllProviders_binds ps : ∀ pts bound p,
  p ∈ ps → ∃ q, (bindAllProviders ps pts bound).2 !! p_tag p = Some (Some q).
Proof.
  induction ps as [|p0 ps IH]; intros pts bound p Hin; simpl.
  - by apply elem_of_nil in Hin.
  - apply elem_of_cons in Hin as [-> | Hin]; [|by apply IH].
    apply bindAllProviders_keeps. exists p0. by rewrite lookup_insert_eq.
Qed.

Lemma bindAllProviders_untouched ps : ∀ pts bound k,
  k ∉ map p_tag ps → (bindAllProviders ps pts bound).2 !! k = bound !! k.
Proof.
  induction ps as [|p ps IH]; intros pts bound k Hk; simpl in *; [done|].
  apply not_elem_of_cons in Hk as [Hne Hk].
  rewrite IH by done. by rewrite lookup_insert_ne.
Qed.

Lemma bindAllProviders_lookup ps : ∀ pts bound k,
  k ∈ map p_tag ps →
  ∃ q, q ∈ ps ∧ p_tag q = k ∧ (bindAllProviders ps pts bound).2 !! k = Some (Some q).
Proof.
  induction ps as [|p ps IH]; intros pts bound k Hk; simpl in *.
  - by apply elem_of_nil in Hk.
  - destruct (decide (k ∈ map p_tag ps)) as [Hin|Hnot].
    + destruct (IH (pts ++ [p_tag p]) (<[p_tag p := Some p]> bound) k Hin)
        as (q & Hq & Htag & Hlook).
      exists q. split; [apply elem_of_cons; by right|done].
    + apply elem_of_cons in Hk as [-> | Hk]; [|done].
      exists p. split; [apply elem_of_cons; by left|]. split; [done|].
      rewrite bindAllProviders_untouched by done. by rewrite lookup_insert_eq.
Qed.

(** What a successful [Start] went through. *)
Lemma Start_inversion w s s' :
  Start w s = Return (s', None) →
  ∃ s2 tags' m' o,
    filterOutbounds w (bindProviders w s) "" = Return (s2, (tags', m', None))
    ∧ outboundSelect w (set_cacheFileRef (ctxCacheFileRef w)
                          (set_outbounds m' (set_tags tags' s2))) = Return (o, None)
    ∧ s' = set_selected o (set_cacheFileRef (ctxCacheFileRef w)
                             (set_outbounds m' (set_tags tags' s2))).
Proof.
  unfold Start.
  destruct (length (tags (bindProviders w s))
            + length (providerTags (bindProviders w s)) =? 0); [done|].
  destruct (filterOutbounds w (bindProviders w s) "")
    as [[s2 [[tags' m'] [e|]]]|] eqn:Hf; simpl; try done.
  destruct (outboundSelect w _) as [[o [e|]]|] eqn:Hsel; simpl; try done.
  intros [= <-]. by exists s2, tags', m', o.
Qed.

(** What any [Start] that returns leaves of the provider bindings. *)
Lemma Start_bindings w s s' e :
  Start w s = Return (s', e) →
  providers s' = providers (bindProviders w s)
  ∧ providerTags s' = providerTags (bindProviders w s).
Proof.
  unfold Start.
  destruct (length (tags (bindProviders w s))
            + length (providerTags (bindProviders w s)) =? 0).
  { by intros [= <- <-]. }
  destruct (filterOutbounds w (bindProviders w s) "")
    as [[s2 [[tags' m'] err]]|] eqn:Hf; simpl; [|done].
  destruct (filterOutbounds_frame _ _ _ _ _ Hf) as [c ->].
  destruct err as [e0|]; [by intros [= <- <-]|].
  destruct (outboundSelect w _) as [[o [e1|]]|]; simpl; try done;
    by intros [= <- <-].
Qed.

Lemma providerLoop_total w s tag : ∀ pts tags m cache,
  (∀ pt, pt ∈ pts → is_Some (boundProvider s pt)) →
  ∃ r, providerLoop w s tag pts tags m cache = Return r.
Proof.
  induction pts as [|pt rest IH]; intros tags0 m cache Hall; [simpl; eauto|].
  assert (∀ pt', pt' ∈ rest → is_Some (boundProvider s pt')) as Hrest.
  { intros pt' Hin. apply Hall. apply elem_of_cons. by right. }
  destruct (bool_decide (pt ≠ tag) && cacheNonNil cache pt) eqn:Hb.
  - apply andb_prop in Hb as [Hne Hc]. apply bool_decide_eq_true in Hne.
    rewrite providerLoop_cached by done. by apply IH.
  - assert (pt = tag ∨ cacheNonNil cache pt = false) as Hc.
    { apply andb_false_iff in Hb as [Hb|Hb]; [left|by right].
      apply bool_decide_eq_false in Hb. by destruct (decide (pt = tag)). }
    destruct (Hall pt) as [p Hp]; [apply elem_of_cons; by left|].
    rewrite (providerLoop_fetched _ _ _ _ _ _ _ _ p) by done. by apply IH.
Qed.

(** The rebuild succeeds when the static tags resolve, the default is one
    of them, every bound provider tag holds a provider and the manager holds
    the fallback outbound. *)
Lemma filterOutbounds_succeeds w s tag :
  (∀ t, t ∈ adapterDependencies s → is_Some (om_Outbound w t)) →
  defaultTag s = "" ∨ defaultTag s ∈ adapterDependencies s →
  (∀ pt, pt ∈ providerTags s → is_Some (boundProvider s pt)) →
  is_Some (om_Outbound w "Compatible") →
  ∃ s1 tags' m', filterOutbounds w s tag = Return (s1, (tags', m', None)).
Proof.
  intros Hdeps Hdef Hbound [c Hc]. unfold filterOutbounds.
  destruct (resolveDependencies_resolves w (adapterDependencies s) 0 ∅ Hdeps)
    as [m0 Hm0].
  rewrite Hm0.
  assert (bool_decide (defaultTag s ≠ "") && bool_decide (m0 !! defaultTag s = None)
          = false) as ->.
  { destruct Hdef as [Hdef|Hdef].
    - rewrite bool_decide_false; [done|]. intros H. by apply H.
    - apply andb_false_iff. right. apply bool_decide_eq_false.
      destruct (resolveDependencies_ok _ _ _ _ _ Hm0) as (_ & _ & Hin).
      destruct (Hin _ Hdef) as [d Hd]. by rewrite Hd. }
  destruct (providerLoop_total w s tag (providerTags s) (adapterDependencies s) m0
              (outboundsCache s) Hbound) as [[[t1 m1] c1] ->].
  simpl. unfold compatibleFallback. destruct t1; [rewrite Hc|]; simpl; eauto.
Qed.

Lemma bindProviders_bound w s pt :
  (if useAllProviders s then True
   else ∀ t, t ∈ providerTags s → is_Some (pm_Provider w t)) →
  pt ∈ providerTags (bindProviders w s) →
  is_Some (boundProvider (bindProviders w s) pt).
Proof.
  unfold bindProviders, boundProvider. destruct (useAllProviders s).
  - intros _.
    pose proof (bindAllProviders_tags (pm_Providers w) [] (providers s)) as Htags.
    pose proof (bindAllProviders_binds (pm_Providers w) [] (providers s)) as Hbinds.
    destruct (bindAllProviders (pm_Providers w) [] (providers s)) as [pts bound].
    simpl in *. subst pts. intros Hin.
    apply list_elem_of_fmap in Hin as (p & -> & Hp).
    destruct (Hbinds p Hp) as [q ->]. eauto.
  - simpl. intros Hall Hin.
    rewrite (bindExplicitProviders_lookup w pt) by (by left).
    destruct (Hall pt Hin) as [p ->]. eauto.
Qed.

(** Once [Start] has succeeded, the persisted choice of an addressable
    Selector is the active member whenever it is a listed candidate. *)
Lemma Start_selects_persisted w s s' cf T :
  Start w s = Return (s', None) →
  adapterTag s ≠ "" →
  w_cacheFile w = Some cf →
  LoadSelected cf (adapterTag s) = T →
  T ≠ "" →
  T ∈ tags s' →
  Now s' = Return T ∧ selected s' = outbounds s' !! T.
Proof.
  intros HStart Htag Hcf HT Hne Hin.
  destruct (Start_inversion _ _ _ HStart) as (s2 & tags' & m' & o & Hf & Hsel & ->).
  destruct (filterOutbounds_frame _ _ _ _ _ Hf) as [c ->].
  destruct (filterOutbounds_ok _ _ _ _ _ _ Hf) as (_ & Hkeyed & Hkeys & _).
  simpl in Hin. destruct (Hkeys T Hin) as [d Hd].
  assert (adapterTag (bindProviders w s) = adapterTag s) as Hat
    by apply bindProviders_config.
  unfold outboundSelect, persistedChoice in Hsel. simpl in Hsel.
  rewrite Hat in Hsel. rewrite bool_decide_true in Hsel by done.
  unfold ctxCacheFileRef in Hsel. rewrite Hcf, HT in Hsel.
  rewrite bool_decide_true in Hsel by done. rewrite Hd in Hsel.
  inversion Hsel; subst o. unfold Now. simpl. rewrite Hd.
  by rewrite (Hkeyed _ _ Hd).
Qed.

(** X7.  With no static tag and no provider to bind (an empty explicit list,
    or bind-all with no registered provider), [Start] fails with "missing
    outbound and provider tags" and selects nothing. *)
Theorem Start_missing_tags (w : World) (s : Selector) :
  tags s = [] →
  (if useAllProviders s then pm_Providers w = [] else providerTags s = []) →
  ∃ s', Start w s = Return (s', Some "missing outbound and provider tags")
        ∧ selected s' = selected s ∧ outbounds s' = outbounds s.
Proof.
  intros Htags Hnone. exists (bindProviders w s).
  destruct (bindProviders_config w s) as (_ & _ & Ht & _ & Ho & _ & Hs).
  split; [|done]. unfold Start. rewrite Ht, Htags.
  assert (providerTags (bindProviders w s) = []) as ->; [|done].
  unfold bindProviders. destruct (useAllProviders s); [|done].
  by rewrite Hnone.
Qed.

(** X8.  [Start] succeeds when the static tags resolve, the default (if any)
    is a static tag, there is a static tag or a provider to bind, every
    explicit provider tag resolves (nothing is asked of bind-all) and the
    manager holds the "Compatible" outbound. *)
Theorem Start_succeeds (w : World) (s : Selector) :
  (∀ t, t ∈ adapterDependencies s → is_Some (om_Outbound w t)) →
  defaultTag s = "" ∨ defaultTag s ∈ adapterDependencies s →
  (if useAllProviders s then True
   else ∀ t, t ∈ providerTags s → is_Some (pm_Provider w t)) →
  tags s ≠ [] ∨ providerTags (bindProviders w s) ≠ [] →
  is_Some (om_Outbound w "Compatible") →
  ∃ s', Start w s = Return (s', None) ∧ is_Some (selected s').
Proof.
  intros Hdeps Hdef Hprov Hsome Hcompat.
  destruct (bindProviders_config w s) as (_ & Hd & Ht & Hdf & _).
  destruct (filterOutbounds_succeeds w (bindProviders w s) "")
    as (s2 & tags' & m' & Hf); try done.
  { by rewrite Hd. }
  { by rewrite Hdf, Hd. }
  { intros pt. by apply bindProviders_bound. }
  destruct (filterOutbounds_frame _ _ _ _ _ Hf) as [c Hs2].
  destruct (filterOutbounds_ok _ _ _ _ _ _ Hf) as (Hne & _ & Hkeys & Hdefault).
  destruct (outboundSelect_resolves w
              (set_cacheFileRef (ctxCacheFileRef w)
                 (set_outbounds m' (set_tags tags' s2)))) as [o Hsel];
    [done | by subst s2 |].
  destruct (outboundSelect_member w
              (set_cacheFileRef (ctxCacheFileRef w)
                 (set_outbounds m' (set_tags tags' s2))) o Hkeys Hsel) as (d & -> & _).
  exists (set_selected (Some d) (set_cacheFileRef (ctxCacheFileRef w)
                                   (set_outbounds m' (set_tags tags' s2)))).
  split; [|simpl; eauto].
  unfold Start. rewrite Ht.
  assert ((length (tags s) + length (providerTags (bindProviders w s)) =? 0) = false)
    as ->.
  { apply Nat.eqb_neq. destruct Hsome as [H|H].
    - destruct (tags s); [done|simpl; lia].
    - destruct (providerTags (bindProviders w s)); [done|simpl; lia]. }
  rewrite Hf. simpl. rewrite Hsel. done.
Qed.

(** X9.  In bind-all mode, whatever [Start] returns, the Selector's provider
    tags are the tags of the providers registered at that moment, in
    enumeration order, and each of those tags is bound to a registered
    provider of that tag. *)
Theorem Start_binds_all_registered (w : World) (s s' : Selector) (e : error) :
  useAllProviders s = true →
  Start w s = Return (s', e) →
  providerTags s' = map p_tag (pm_Providers w)
  ∧ ∀ p, p ∈ pm_Providers w →
         ∃ q, boundProvider s' (p_tag p) = Some q
              ∧ q ∈ pm_Providers w ∧ p_tag q = p_tag p.
Proof.
  intros Hall HStart.
  destruct (Start_bindings _ _ _ _ HStart) as [Hprov Htags].
  pose proof (bindAllProviders_tags (pm_Providers w) [] (providers s)) as Hpts.
  split.
  - rewrite Htags. unfold bindProviders. rewrite Hall.
    by destruct (bindAllProviders (pm_Providers w) [] (providers s)).
  - intros p Hp.
    destruct (bindAllProviders_lookup (pm_Providers w) [] (providers s) (p_tag p))
      as (q & Hq & Htag & Hlook).
    { apply list_elem_of_fmap. eauto. }
    exists q. split; [|done].
    unfold boundProvider. rewrite Hprov. unfold bindProviders. rewrite Hall.
    destruct (bindAllProviders (pm_Providers w) [] (providers s)). simpl in *.
    by rewrite Hlook.
Qed.

(** X10.  After a successful [Start], [Now] returns the tag of the active
    member, and that tag is one of [All]. *)
Theorem Start_now_in_all (w : World) (s s' : Selector) :
  Start w s = Return (s', None) →
  ∃ t d, Now s' = Return t ∧ t ∈ All s'
         ∧ selected s' = Some d ∧ outbounds s' !! t = Some d.
Proof.
  intros HStart.
  destruct (Start_inversion _ _ _ HStart) as (s2 & tags' & m' & o & Hf & Hsel & ->).
  destruct (filterOutbounds_ok _ _ _ _ _ _ Hf) as (_ & Hkeyed & Hkeys & _).
  destruct (outboundSelect_member w
              (set_cacheFileRef (ctxCacheFileRef w)
                 (set_outbounds m' (set_tags tags' s2))) o Hkeys Hsel) as (d & -> & t & Ht).
  simpl in Ht. exists t, d. unfold Now, All. simpl.
  rewrite (Hkeyed _ _ Ht). repeat split; try done.
  apply (filterOutbounds_listed_iff_key _ _ _ _ _ _ Hf). eauto.
Qed.

(** X11.  A restart restores the persisted choice: when [Start] succeeds for
    an addressable Selector whose store holds a non-empty choice that is
    among the rebuilt candidates, that choice is the active member, whatever
    the default tag and the candidate order. *)
Theorem Start_restores_persisted (w : World) (s s' : Selector) (cf : CacheFile)
    (T : string) :
  Start w s = Return (s', None) →
  adapterTag s ≠ "" →
  w_cacheFile w = Some cf →
  LoadSelected cf (adapterTag s) = T →
  T ≠ "" →
  T ∈ tags s' →
  Now s' = Return T ∧ selected s' = outbounds s' !! T.
Proof. apply Start_selects_persisted. Qed.

(** ** Explicit selection, further *)

Lemma persistSelected_store w s tag cf :
  adapterTag s ≠ "" →
  w_cacheFile w = Some cf →
  cf_failing cf = false →
  ∃ cf', w_cacheFile (persistSelected w s tag) = Some cf'
         ∧ LoadSelected cf' (adapterTag s) = tag
         ∧ w_trace (persistSelected w s tag)
           = w_trace w ++ [EvStoreSelected (adapterTag s) tag].
Proof.
  intros Htag Hcf Hok. unfold persistSelected, StoreSelected.
  rewrite bool_decide_true, Hcf, Hok by done. simpl.
  eexists. split; [done|]. split; [|done].
  unfold LoadSelected. simpl. by rewrite lookup_insert_eq.
Qed.

(** X12.  Selection survives a restart.  After [SelectOutbound] switches an
    addressable Selector, with a working store, to a candidate of non-empty
    tag, any Selector of the same tag that then starts successfully over
    that store and lists that tag has it as its active member. *)
Theorem SelectOutbound_survives_restart (w w1 : World) (s s1 : Selector)
    (tag : string) (d : Outbound) (cf : CacheFile) (r : bool) (s0 s0' : Selector) :
  outbounds s !! tag = Some d →
  selected s ≠ Some d →
  adapterTag s ≠ "" →
  tag ≠ "" →
  w_cacheFile w = Some cf →
  cf_failing cf = false →
  SelectOutbound w s tag = (w1, s1, r) →
  adapterTag s0 = adapterTag s →
  Start w1 s0 = Return (s0', None) →
  tag ∈ tags s0' →
  Now s0' = Return tag.
Proof.
  intros Hd Hold Htag Hne Hcf Hok Hcall Hsame HStart Hin.
  unfold SelectOutbound in Hcall. rewrite Hd in Hcall.
  rewrite bool_decide_false in Hcall by done.
  inversion Hcall; subst; clear Hcall.
  destruct (persistSelected_store w (set_selected (Some d) s) tag cf)
    as (cf' & Hcf' & Hload & _); try done.
  apply (Start_selects_persisted _ _ _ cf' tag HStart); try done.
  - by rewrite Hsame.
  - by rewrite Hsame.
Qed.

(** X13.  A failing store does not stop a switch: the new candidate becomes
    the active member, the store keeps what it held, and the outside sees
    the write attempt, one error log line and the interrupt signal, in that
    order. *)
Theorem SelectOutbound_store_failure (w w' : World) (s s' : Selector)
    (tag : string) (d : Outbound) (cf : CacheFile) (r : bool) :
  outbounds s !! tag = Some d →
  selected s ≠ Some d →
  adapterTag s ≠ "" →
  w_cacheFile w = Some cf →
  cf_failing cf = true →
  SelectOutbound w s tag = (w', s', r) →
  r = true
  ∧ selected s' = Some d
  ∧ w_cacheFile w' = Some cf
  ∧ ∃ msg, w_trace w'
           = w_trace w ++ [EvStoreSelected (adapterTag s) tag; EvLogError msg;
                            EvInterrupt (interruptExternalConnections s)].
Proof.
  intros Hd Hold Htag Hcf Hfail Hcall.
  unfold SelectOutbound in Hcall. rewrite Hd in Hcall.
  rewrite bool_decide_false in Hcall by done.
  inversion Hcall; subst; clear Hcall.
  unfold persistSelected, StoreSelected. simpl.
  rewrite bool_decide_true, Hcf, Hfail by done. simpl.
  repeat split; try done. eexists. by rewrite <- !app_assoc.
Qed.

(** X14.  On a Selector whose candidate map is keyed by tag (as every
    rebuild leaves it), [SelectOutbound] returns true exactly for a
    candidate tag; then [Now] returns that tag and the candidates are as
    before; otherwise nothing at all changes. *)
Theorem SelectOutbound_then_Now (w w' : World) (s s' : Selector) (tag : string)
    (r : bool) :
  keyedByTag (outbounds s) →
  SelectOutbound w s tag = (w', s', r) →
  (r = true ↔ is_Some (outbounds s !! tag))
  ∧ (r = true → Now s' = Return tag ∧ outbounds s' = outbounds s ∧ All s' = All s)
  ∧ (r = false → s' = s ∧ w' = w).
Proof.
  intros Hkeyed Hcall. unfold SelectOutbound in Hcall.
  destruct (outbounds s !! tag) as [d|] eqn:Hd.
  - assert (s' = set_selected (Some d) s ∧ r = true) as [-> ->]
      by (by case_bool_decide; inversion Hcall).
    repeat split; try done; eauto;
      try (unfold Now; simpl; by rewrite (Hkeyed _ _ Hd)).
  - inversion Hcall; subst. repeat split; try done;
      try (intros [x Hx]; discriminate).
Qed.

(** ** Provider-driven reconciliation, further *)

(** X15.  In explicit mode, once the providers are bound on a Selector that
    had none, [HasProvider] is true exactly for the tags [UpdateOutbounds]
    accepts; for any other tag [UpdateOutbounds] returns an error and
    changes nothing. *)
Theorem HasProvider_explicit_bound (w w2 : World) (s : Selector) (tag : string) :
  useAllProviders s = false →
  providers s = ∅ →
  (HasProvider w2 (bindProviders w s) tag = true
   ↔ is_Some (providers (bindProviders w s) !! tag))
  ∧ (HasProvider w2 (bindProviders w s) tag = false →
     ∃ e, UpdateOutbounds w2 (bindProviders w s) tag
          = Return (w2, bindProviders w s, Some e)).
Proof.
  intros Hmode Hfresh.
  assert (bindProviders w s
          = set_providers (bindExplicitProviders w 0 (providerTags s) (providers s)) s)
    as -> by (unfold bindProviders; by rewrite Hmode).
  assert (∀ pts i bound t, t ∉ pts →
            bindExplicitProviders w i pts bound !! t = bound !! t) as Hout.
  { induction pts as [|t0 pts IH]; intros i bound t Ht; simpl; [done|].
    apply not_elem_of_cons in Ht as [Hne Ht].
    rewrite IH by done. by rewrite lookup_insert_ne. }
  unfold HasProvider. simpl. rewrite Hmode.
  assert (bool_decide (tag ∈ providerTags s) = true
          ↔ is_Some (bindExplicitProviders w 0 (providerTags s) (providers s) !! tag))
    as Hiff.
  { rewrite bool_decide_eq_true. split.
    - intros Hin. rewrite (bindExplicitProviders_lookup w tag) by (by left). eauto.
    - intros [x Hx]. destruct (decide (tag ∈ providerTags s)) as [|Hnot]; [done|].
      rewrite Hout, Hfresh, lookup_empty in Hx by done. discriminate. }
  split; [done|].
  intros Hfalse. unfold UpdateOutbounds. simpl.
  destruct (bindExplicitProviders w 0 (providerTags s) (providers s) !! tag)
    as [b|] eqn:Hb; [|eauto].
  assert (bool_decide (tag ∈ providerTags s) = true) as Htrue
    by (apply Hiff; eauto).
  congruence.
Qed.

(** X16.  [UpdateOutbounds] for a bound provider tag never returns an error:
    whenever it returns, the error is nil. *)
Theorem UpdateOutbounds_swallows_errors (w w' : World) (s s' : Selector)
    (tag : string) (e : error) :
  is_Some (providers s !! tag) →
  UpdateOutbounds w s tag = Return (w', s', e) →
  e = None.
Proof.
  intros [b Hb]. unfold UpdateOutbounds. rewrite Hb.
  destruct (filterOutbounds w s tag) as [[s1 [[tags' m'] err]]|]; simpl; [|done].
  destruct (anyOtherUpdating w tag (pm_Providers w)); [by intros [= _ _ <-]|].
  destruct (outboundSelect w _) as [[o [e1|]]|]; simpl; try done.
  - by intros [= _ _ <-].
  - destruct o as [d|]; [|done].
    destruct (SelectOutbound w _ (o_tag d)) as [[w2 s3] r].
    by intros [= _ _ <-].
Qed.

(** X17.  A rebuild that fails inside [UpdateOutbounds] is not reported: the
    tag list and the candidate map are emptied.  With another provider
    updating, or with a default tag configured, the call returns nil and
    the active selection stays; with no default tag and nobody else
    updating, the call panics on the empty tag list. *)
Theorem UpdateOutbounds_failed_rebuild (w : World) (s s1 : Selector) (tag : string)
    (tags' : list string) (m' : gmap string Outbound) (e : string) :
  is_Some (providers s !! tag) →
  filterOutbounds w s tag = Return (s1, (tags', m', Some e)) →
  s1 = s ∧ tags' = [] ∧ m' = ∅
  ∧ (anyOtherUpdating w tag (pm_Providers w) = true ∨ defaultTag s ≠ "" →
     UpdateOutbounds w s tag = Return (w, set_outbounds ∅ (set_tags [] s), None))
  ∧ (anyOtherUpdating w tag (pm_Providers w) = false → defaultTag s = "" →
     ∃ msg, UpdateOutbounds w s tag = Panic msg).
Proof.
  intros [b Hb] Hf.
  assert (s1 = s ∧ tags' = [] ∧ m' = ∅) as (-> & -> & ->).
  { unfold filterOutbounds in Hf.
    destruct (resolveDependencies w 0 (adapterDependencies s) ∅) as [m0|e0];
      [|by inversion Hf].
    destruct (bool_decide (defaultTag s ≠ "") && bool_decide (m0 !! defaultTag s = None));
      [by inversion Hf|].
    destruct (providerLoop w s tag (providerTags s) (adapterDependencies s) m0
                (outboundsCache s)) as [[[t1 m1] c1]|]; [|done].
    simpl in Hf. destruct (compatibleFallback w t1 m1) as [[t2 m2]|]; done. }
  repeat split; try done.
  - intros Hcase. unfold UpdateOutbounds. rewrite Hb, Hf. simpl.
    destruct (anyOtherUpdating w tag (pm_Providers w)); [done|].
    destruct Hcase as [Hcase|Hdef]; [done|].
    unfold outboundSelect, persistedChoice. simpl.
    assert ((if bool_decide (adapterTag s ≠ "")
             then match cacheFile s, w_cacheFile w with
                  | Some CtxCacheFile, Some cf =>
                      if bool_decide (LoadSelected cf (adapterTag s) ≠ "")
                      then (∅ : gmap string Outbound) !! LoadSelected cf (adapterTag s)
                      else None
                  | _, _ => None
                  end
             else None) = None) as ->.
    { case_bool_decide; [|done]. destruct (cacheFile s) as [[]|]; [|done].
      destruct (w_cacheFile w); [|done]. by case_bool_decide. }
    rewrite bool_decide_true by done. by rewrite lookup_empty.
  - intros Hquiet Hdef. unfold UpdateOutbounds. rewrite Hb, Hf. simpl.
    rewrite Hquiet. unfold outboundSelect, persistedChoice. simpl.
    assert ((if bool_decide (adapterTag s ≠ "")
             then match cacheFile s, w_cacheFile w with
                  | Some CtxCacheFile, Some cf =>
                      if bool_decide (LoadSelected cf (adapterTag s) ≠ "")
                      then (∅ : gmap string Outbound) !! LoadSelected cf (adapterTag s)
                      else None
                  | _, _ => None
                  end
             else None) = None) as ->.
    { case_bool_decide; [|done]. destruct (cacheFile s) as [[]|]; [|done].
      destruct (w_cacheFile w); [|done]. by case_bool_decide. }
    rewrite bool_decide_false by (intros H; by apply H). simpl. eauto.
Qed.

(** X18.  [UpdateOutbounds] never rebinds or reconfigures: whenever it
    returns, the provider bindings, the provider tags, the patterns, the
    default tag and the Selector's own tag are as before, and the outbound
    and provider registries of the outside are untouched. *)
Theorem UpdateOutbounds_frame (w w' : World) (s s' : Selector) (tag : string)
    (e : error) :
  UpdateOutbounds w s tag = Return (w', s', e) →
  providers s' = providers s ∧ providerTags s' = providerTags s
  ∧ include s' = include s ∧ exclude s' = exclude s
  ∧ defaultTag s' = defaultTag s ∧ adapterTag s' = adapterTag s
  ∧ adapterDependencies s' = adapterDependencies s
  ∧ w_outbounds w' = w_outbounds w ∧ w_providers w' = w_providers w.
Proof.
  unfold UpdateOutbounds.
  destruct (providers s !! tag) as [b|]; [|by intros [= <- <- _]].
  destruct (filterOutbounds w s tag) as [[s1 [[tags' m'] err]]|] eqn:Hf; simpl;
    [|done].
  destruct (filterOutbounds_frame _ _ _ _ _ Hf) as [c ->].
  destruct (anyOtherUpdating w tag (pm_Providers w)); [by intros [= <- <- _]|].
  destruct (outboundSelect w _) as [[o [e1|]]|]; simpl; try done.
  - by intros [= <- <- _].
  - destruct o as [d|]; [|done]. unfold SelectOutbound. simpl.
    destruct (m' !! o_tag d) as [d'|]; [|by intros [= <- <- _]].
    case_bool_decide; [by intros [= <- <- _]|].
    intros [= <- <- _]. simpl. repeat split; try done;
      unfold persistSelected; simpl;
      (case_bool_decide; [|done]);
      (destruct (w_cacheFile w) as [cf|]; [|done]);
      by destruct (StoreSelected cf _ _) as [cf' [e'|]].
Qed.

(** ** Construction of a Selector *)

(** X19.  [NewSelector] fails exactly when a non-empty pattern does not
    compile, the exclude pattern being compiled first; an empty pattern
    leaves the corresponding filter off, and a Selector that is returned
    comes with a nil error, nothing selected and empty candidates. *)
Theorem NewSelectorFromOptions_patterns (compile : string -> Regexp + string)
    (tag : string) (options : SelectorOutboundOptions) :
  (∀ e, opt_Exclude options ≠ "" → compile (opt_Exclude options) = inr e →
        NewSelectorFromOptions compile tag options = (None, Some e))
  ∧ (∀ e, (opt_Exclude options = "" ∨ ∃ re, compile (opt_Exclude options) = inl re) →
          opt_Include options ≠ "" → compile (opt_Include options) = inr e →
          NewSelectorFromOptions compile tag options = (None, Some e))
  ∧ (∀ s err, NewSelectorFromOptions compile tag options = (Some s, err) →
       err = None
       ∧ (exclude s = None ↔ opt_Exclude options = "")
       ∧ (include s = None ↔ opt_Include options = "")
       ∧ (∀ re, exclude s = Some re → compile (opt_Exclude options) = inl re)
       ∧ (∀ re, include s = Some re → compile (opt_Include options) = inl re)
       ∧ selected s = None ∧ outbounds s = ∅ ∧ outboundsCache s = ∅
       ∧ tags s = opt_Outbounds options
       ∧ adapterDependencies s = opt_Outbounds options).
Proof.
  unfold NewSelectorFromOptions, compilePattern. split; [|split].
  - intros e Hne He. rewrite bool_decide_true by done. by rewrite He.
  - intros e Hex Hne He.
    destruct (bool_decide (opt_Exclude options ≠ "")) eqn:Hb.
    + apply bool_decide_eq_true in Hb. destruct Hex as [Hex | [re Hre]]; [done|].
      rewrite Hre. rewrite bool_decide_true by done. by rewrite He.
    + rewrite bool_decide_true by done. by rewrite He.
  - intros s err.
    destruct (bool_decide (opt_Exclude options ≠ "")) eqn:Hbe;
      [destruct (compile (opt_Exclude options)) as [rex|e] eqn:Hce; [|done]|];
      (destruct (bool_decide (opt_Include options ≠ "")) eqn:Hbi;
       [destruct (compile (opt_Include options)) as [rin|e] eqn:Hci; [|done]|]);
      intros [= <- <-]; simpl;
      try apply bool_decide_eq_true in Hbe; try apply bool_decide_eq_true in Hbi;
      try apply bool_decide_eq_false in Hbe; try apply bool_decide_eq_false in Hbi;
      repeat split; try done; try congruence;
      try (intros _; by destruct (decide (opt_Exclude options = "")));
      try (intros _; by destruct (decide (opt_Include options = ""))).
Qed.

(** X20.  A Selector configured with no pattern filters nothing: the fetch
    loop appends every outbound the provider reports, in order. *)
Theorem NewSelectorFromOptions_no_pattern_keeps_all
    (compile : string -> Regexp + string) (tag : string)
    (options : SelectorOutboundOptions) :
  opt_Exclude options = "" →
  opt_Include options = "" →
  ∃ s, NewSelectorFromOptions compile tag options = (Some s, None)
       ∧ ∀ ds tags cache m,
           fetchLoop s ds tags cache m = (tags ++ map o_tag ds, cache ++ ds, insertAll ds m).
Proof.
  intros Hex Hin. unfold NewSelectorFromOptions, compilePattern.
  rewrite Hex, Hin. rewrite !bool_decide_false by (intros H; by apply H).
  eexists. split; [done|].
  intros ds tags0 cache m. rewrite fetchLoop_closed.
  assert (kept (NewSelector tag (opt_Outbounds options) (opt_Default options)
                  (opt_InterruptExistConnections options) None None
                  (opt_Providers options) (opt_UseAllProviders options)) ds = ds) as ->;
    [|done].
  unfold kept, survives. simpl. induction ds as [|d ds IH]; simpl; [done|].
  by rewrite IH.
Qed.

(** X21.  Before [Start], [Now] answers with the first configured static
    tag; a Selector configured with providers only has none, and [Now]
    panics on the empty list. *)
Theorem Now_before_Start (compile : string -> Regexp + string) (tag : string)
    (options : SelectorOutboundOptions) (s : Selector) :
  NewSelectorFromOptions compile tag options = (Some s, None) →
  match opt_Outbounds options with
  | first :: _ => Now s = Return first
  | [] => ∃ msg, Now s = Panic msg
  end.
Proof.
  unfold NewSelectorFromOptions.
  destruct (compilePattern compile (opt_Exclude options)) as [ex|e]; [|done].
  destruct (compilePattern compile (opt_Include options)) as [inc|e]; [|done].
  intros [= <-]. unfold Now. simpl.
  destruct (opt_Outbounds options); eauto.
Qed.

(** ** The file-backed provider, further *)

(** X22.  A reload that fails keeps the provider's last good state: the
    held option list, the managed outbounds, the watcher and the in-flight
    flag are all as before. *)
Theorem reloadFile_failure_keeps_list (env : ProviderLocal.Env)
    (s s' : ProviderLocal.ProviderLocal) (path e : string) :
  ProviderLocal.reloadFile env s path = (s', Some e) →
  ProviderLocal.lastOutOpts s' = ProviderLocal.lastOutOpts s
  ∧ ProviderLocal.adapterOutbounds s' = ProviderLocal.adapterOutbounds s
  ∧ ProviderLocal.watcher s' = ProviderLocal.watcher s
  ∧ ProviderLocal.updating s' = ProviderLocal.updating s
  ∧ ((∃ e', ProviderLocal.env_ReadFile env path = inr e')
     ∨ (∃ c e', ProviderLocal.env_ReadFile env path = inl c
                ∧ ProviderLocal.env_ParseSubscription env c = inr e')).
Proof.
  unfold ProviderLocal.reloadFile.
  destruct (ProviderLocal.env_ReadFile env path) as [c|e1] eqn:Hr.
  - destruct (ProviderLocal.env_ParseSubscription env c) as [opts|e2] eqn:Hp; [done|].
    intros [= <- _]. destruct (ProviderLocal.env_Stat env path); simpl;
      repeat split; try done; right; eauto.
  - intros [= <- _]. destruct (ProviderLocal.env_Stat env path); simpl;
      repeat split; try done; left; eauto.
Qed.

(** X23.  [UpdatedAt] follows the stat step alone: after any reload attempt,
    successful or not, it is the file's modification time when the stat
    succeeded and the previous value when it failed. *)
Theorem reloadFile_UpdatedAt (env : ProviderLocal.Env)
    (s : ProviderLocal.ProviderLocal) (path : string) :
  ProviderLocal.UpdatedAt (ProviderLocal.reloadFile env s path).1
  = match ProviderLocal.env_Stat env path with
    | inl modTime => modTime
    | inr _ => ProviderLocal.UpdatedAt s
    end.
Proof.
  unfold ProviderLocal.reloadFile, ProviderLocal.UpdatedAt.
  destruct (ProviderLocal.env_ReadFile env path) as [c|e1];
    [destruct (ProviderLocal.env_ParseSubscription env c) as [opts|e2]|];
    by destruct (ProviderLocal.env_Stat env path).
Qed.

(** X25.  Once the initial load has succeeded, construction depends on the
    watcher alone: it fails with the watcher's error when the watch on the
    resolved path cannot be created, and otherwise returns an idle provider
    holding the parsed list, watching that path, with the file's
    modification time (or the zero time when the stat failed). *)
Theorem NewProviderLocal_after_load (env : ProviderLocal.Env) (tag path c : string)
    (opts : list ProviderLocal.OutboundOptions) :
  tag ≠ "" →
  path ≠ "" →
  ProviderLocal.env_ReadFile env (ProviderLocal.env_resolve env path) = inl c →
  ProviderLocal.env_ParseSubscription env c = inl opts →
  ProviderLocal.NewProviderLocal env tag path
  = match ProviderLocal.env_NewWatcher env [ProviderLocal.env_resolve env path] with
    | inr e => (None, Some e)
    | inl wt =>
        (Some (ProviderLocal.mkProviderLocal tag opts opts
                 (match ProviderLocal.env_Stat env (ProviderLocal.env_resolve env path) with
                  | inl modTime => modTime
                  | inr _ => 0
                  end) (Some wt) false), None)
    end.
Proof.
  intros Htag Hpath Hr Hp.
  unfold ProviderLocal.NewProviderLocal, ProviderLocal.reloadFile.
  rewrite !bool_decide_false by done. rewrite Hr, Hp.
  destruct (ProviderLocal.env_NewWatcher env _) as [wt|e]; [|done].
  by destruct (ProviderLocal.env_Stat env _).
Qed.

(** ** What a provider update does to the selection *)

(** The selection a non-debounced update with a successful rebuild ends
    on. *)
Lemma UpdateOutbounds_selects w s tag s1 tags' m' d :
  is_Some (providers s !! tag) →
  filterOutbounds w s tag = Return (s1, (tags', m', None)) →
  (∀ p, In p (pm_Providers w) → p_tag p ≠ tag → w_provider_updating w p = false) →
  outboundSelect w (set_outbounds m' (set_tags tags' s1)) = Return (Some d, None) →
  ∃ w', UpdateOutbounds w s tag
        = Return (w', set_selected (Some d) (set_outbounds m' (set_tags tags' s1)), None).
Proof.
  intros [b Hb] Hf Hquiet Hsel.
  destruct (filterOutbounds_ok _ _ _ _ _ _ Hf) as (_ & Hkeyed & Hkeys & _).
  destruct (outboundSelect_member w (set_outbounds m' (set_tags tags' s1)) (Some d)
              Hkeys Hsel) as (d' & [= <-] & t & Ht).
  simpl in Ht. assert (o_tag d = t) as Htag by (by apply Hkeyed).
  destruct (SelectOutbound_candidate w (set_outbounds m' (set_tags tags' s1))
              (o_tag d) d) as [w' Hcall]; [by rewrite Htag|].
  exists w'. unfold UpdateOutbounds. rewrite Hb, Hf. simpl.
  rewrite (anyOtherUpdating_false _ _ Hquiet), Hsel. simpl. by rewrite Hcall.
Qed.

(** X28.  Without a persisted store, a provider update forgets an explicit
    selection: when the rebuild succeeds and no other provider is updating,
    the active member becomes the default tag's candidate, or the first
    listed candidate when no default is configured, whatever was selected
    before. *)
Theorem UpdateOutbounds_resets_unpersisted_selection (w : World) (s s1 : Selector)
    (tag first : string) (rest : list string) (m' : gmap string Outbound) :
  is_Some (providers s !! tag) →
  filterOutbounds w s tag = Return (s1, (first :: rest, m', None)) →
  (∀ p, In p (pm_Providers w) → p_tag p ≠ tag → w_provider_updating w p = false) →
  w_cacheFile w = None →
  ∃ w' s', UpdateOutbounds w s tag = Return (w', s', None)
           ∧ Now s' = Return (if bool_decide (defaultTag s = "") then first
                              else defaultTag s)
           ∧ All s' = first :: rest.
Proof.
  intros Hb Hf Hquiet Hnone.
  destruct (filterOutbounds_frame _ _ _ _ _ Hf) as [c Hs1].
  destruct (filterOutbounds_ok _ _ _ _ _ _ Hf) as (_ & Hkeyed & Hkeys & Hdef).
  assert (∃ d, outboundSelect w (set_outbounds m' (set_tags (first :: rest) s1))
               = Return (Some d, None)
               ∧ o_tag d = (if bool_decide (defaultTag s = "") then first
                            else defaultTag s)) as (d & Hsel & Htag).
  { unfold outboundSelect, persistedChoice. simpl. rewrite Hnone.
    assert ((if bool_decide (adapterTag s1 ≠ "")
             then match cacheFile s1 with
                  | Some CtxCacheFile => None
                  | None => None
                  end
             else None) = (None : option Outbound)) as ->.
    { case_bool_decide; [|done]. by destruct (cacheFile s1) as [[]|]. }
    subst s1. simpl. case_bool_decide as Hd.
    - rewrite bool_decide_false by done.
      destruct (Hdef Hd) as [d Hd']. exists d. rewrite Hd'.
      split; [done|]. by apply Hkeyed.
    - assert (defaultTag s = "") as Hempty by (by destruct (decide (defaultTag s = ""))).
      rewrite bool_decide_true by done.
      destruct (Hkeys first) as [d Hd']; [apply elem_of_cons; by left|].
      exists d. rewrite Hd'. split; [done|]. by apply Hkeyed. }
  destruct (UpdateOutbounds_selects _ _ _ _ _ _ _ Hb Hf Hquiet Hsel) as [w' Hcall].
  eexists _, _. split; [exact Hcall|]. unfold Now, All. simpl. by rewrite Htag.
Qed.

(** X29.  With a store, a provider update keeps the remembered choice: when
    the rebuild succeeds, no other provider is updating, and the store's
    choice for this addressable, started Selector is among the rebuilt
    candidates, that choice is the active member afterwards. *)
Theorem UpdateOutbounds_keeps_persisted_choice (w : World) (s s1 : Selector)
    (tag T : string) (tags' : list string) (m' : gmap string Outbound) (cf : CacheFile) :
  is_Some (providers s !! tag) →
  filterOutbounds w s tag = Return (s1, (tags', m', None)) →
  (∀ p, In p (pm_Providers w) → p_tag p ≠ tag → w_provider_updating w p = false) →
  adapterTag s ≠ "" →
  cacheFile s = Some CtxCacheFile →
  w_cacheFile w = Some cf →
  LoadSelected cf (adapterTag s) = T →
  T ≠ "" →
  T ∈ tags' →
  ∃ w' s', UpdateOutbounds w s tag = Return (w', s', None)
           ∧ Now s' = Return T ∧ selected s' = m' !! T.
Proof.
  intros Hb Hf Hquiet Htag Href Hcf HT Hne Hin.
  destruct (filterOutbounds_frame _ _ _ _ _ Hf) as [c Hs1].
  destruct (filterOutbounds_ok _ _ _ _ _ _ Hf) as (_ & Hkeyed & Hkeys & _).
  destruct (Hkeys T Hin) as [d Hd].
  assert (outboundSelect w (set_outbounds m' (set_tags tags' s1))
          = Return (Some d, None)) as Hsel.
  { unfold outboundSelect, persistedChoice. subst s1. simpl.
    rewrite bool_decide_true, Href, Hcf, HT by done.
    rewrite bool_decide_true by done. by rewrite Hd. }
  destruct (UpdateOutbounds_selects _ _ _ _ _ _ _ Hb Hf Hquiet Hsel) as [w' Hcall].
  eexists _, _. split; [exact Hcall|]. unfold Now. simpl.
  rewrite Hd. by rewrite (Hkeyed _ _ Hd).
Qed.

(** ** The further properties, at the scenarios *)

Ltac settle :=
  first [ solve [vm_compute; first [reflexivity | discriminate | exact I]]
        | solve [apply (bool_decide_unpack _); vm_compute; exact I]
        | solve [eexists; vm_compute; reflexivity] ].

Ltac quiet := intros ? ? ?; vm_compute; reflexivity.

Lemma filterOutbounds_static_first_witness :
  Cases.r_tags Cases.R_mixed ≠ []
  ∧ ∃ provided,
      Cases.r_tags Cases.R_mixed = adapterDependencies Cases.bound_mixed ++ provided.
Proof.
  apply (filterOutbounds_static_first Cases.w_mixed Cases.bound_mixed
           (Cases.r_state Cases.R_mixed) "" (Cases.r_tags Cases.R_mixed)
           (Cases.r_map Cases.R_mixed)).
  settle.
Defined.

Lemma filterOutbounds_tags_are_keys_witness :
  (∀ t, t ∈ Cases.r_tags Cases.R_mixed ↔ is_Some (Cases.r_map Cases.R_mixed !! t))
  ∧ (∀ t d, Cases.r_map Cases.R_mixed !! t = Some d → o_tag d = t).
Proof.
  apply (filterOutbounds_tags_are_keys Cases.w_mixed Cases.bound_mixed
           (Cases.r_state Cases.R_mixed) "" (Cases.r_tags Cases.R_mixed)
           (Cases.r_map Cases.R_mixed)).
  settle.
Defined.

Lemma filterOutbounds_unresolved_static_witness :
  ∃ e, filterOutbounds Demo.w_static Cases.sel_unresolved ""
       = Return (Cases.sel_unresolved, ([], ∅, Some e)).
Proof.
  apply (filterOutbounds_unresolved_static Demo.w_static Cases.sel_unresolved "" "Z");
    settle.
Defined.

Lemma filterOutbounds_default_must_be_static_witness :
  filterOutbounds Cases.w_mixed Cases.sel_provider_default ""
  = Return (Cases.sel_provider_default,
            ([], ∅, Some ("default outbound not found: "
                          +:+ defaultTag Cases.sel_provider_default))).
Proof.
  apply (filterOutbounds_default_must_be_static Cases.w_mixed
           Cases.sel_provider_default "").
  - intros t Ht. apply list_elem_of_singleton in Ht as ->. settle.
  - settle.
  - settle.
Defined.

Lemma fetchLoop_later_entry_wins_witness :
  (fetchLoop Demo.sel_two ([Demo.pa1] ++ Cases.pa1_again :: [Demo.pa2]) [] []
             {["pa-1" := Demo.pa1]}).2 !! o_tag Cases.pa1_again
  = Some Cases.pa1_again.
Proof.
  apply (fetchLoop_later_entry_wins Demo.sel_two [Demo.pa1] [Demo.pa2]
           Cases.pa1_again [] [] {["pa-1" := Demo.pa1]}).
  - settle.
  - intros d' Hin _. apply list_elem_of_singleton in Hin as ->. settle.
Defined.

Lemma filterOutbounds_refreshes_changed_cache_witness :
  outboundsCache (Cases.r_state Cases.R_shrunk) !! "providerA"
  = Some (kept Demo.s_two (w_provider_outbounds Demo.w_shrunk Demo.providerA))
  ∧ ∀ k, k ∉ providerTags Demo.s_two →
         outboundsCache (Cases.r_state Cases.R_shrunk) !! k
         = outboundsCache Demo.s_two !! k.
Proof.
  apply (filterOutbounds_refreshes_changed_cache Demo.w_shrunk Demo.s_two
           (Cases.r_state Cases.R_shrunk) "providerA" Demo.providerA
           (Cases.r_tags Cases.R_shrunk) (Cases.r_map Cases.R_shrunk)); settle.
Defined.

Lemma Start_missing_tags_witness :
  ∃ s', Start Demo.w_static Cases.sel_nothing
        = Return (s', Some "missing outbound and provider tags")
        ∧ selected s' = selected Cases.sel_nothing
        ∧ outbounds s' = outbounds Cases.sel_nothing.
Proof.
  apply (Start_missing_tags Demo.w_static Cases.sel_nothing); settle.
Defined.

Lemma Start_succeeds_witness :
  ∃ s', Start Cases.w_mixed Cases.sel_mixed = Return (s', None)
        ∧ is_Some (selected s').
Proof.
  apply (Start_succeeds Cases.w_mixed Cases.sel_mixed).
  - intros t Ht. apply list_elem_of_singleton in Ht as ->. settle.
  - left. settle.
  - intros t Ht. apply list_elem_of_singleton in Ht as ->. settle.
  - left. settle.
  - settle.
Defined.

Lemma Start_binds_all_registered_witness :
  providerTags Cases.s_all = map p_tag (pm_Providers Demo.w_two)
  ∧ ∀ p, p ∈ pm_Providers Demo.w_two →
         ∃ q, boundProvider Cases.s_all (p_tag p) = Some q
              ∧ q ∈ pm_Providers Demo.w_two ∧ p_tag q = p_tag p.
Proof.
  apply (Start_binds_all_registered Demo.w_two Cases.sel_all Cases.s_all None);
    settle.
Defined.

Lemma Start_now_in_all_witness :
  ∃ t d, Now Demo.s_two = Return t ∧ t ∈ All Demo.s_two
         ∧ selected Demo.s_two = Some d ∧ outbounds Demo.s_two !! t = Some d.
Proof.
  apply (Start_now_in_all Demo.w_two Demo.sel_two Demo.s_two). settle.
Defined.

Lemma Start_restores_persisted_witness :
  Now Demo.s_persisted = Return "B"
  ∧ selected Demo.s_persisted = outbounds Demo.s_persisted !! "B".
Proof.
  apply (Start_restores_persisted Demo.w_persisted Demo.sel_default Demo.s_persisted
           (mkCacheFile {["select" := "B"]} false) "B"); settle.
Defined.

Lemma SelectOutbound_survives_restart_witness :
  Now (Demo.afterStart Demo.w_static_B Demo.sel_static) = Return "B".
Proof.
  apply (SelectOutbound_survives_restart Demo.w_static Demo.w_static_B Demo.s_static
           Demo.s_static_B "B" Demo.B Demo.store0 true Demo.sel_static
           (Demo.afterStart Demo.w_static_B Demo.sel_static)); settle.
Defined.

Lemma SelectOutbound_store_failure_witness :
  Cases.picked_failing.2 = true
  ∧ selected Cases.picked_failing.1.2 = Some Demo.B
  ∧ w_cacheFile Cases.picked_failing.1.1 = Some Cases.failing_store
  ∧ ∃ msg, w_trace Cases.picked_failing.1.1
           = w_trace Cases.w_failing
             ++ [EvStoreSelected (adapterTag Cases.s_failing) "B"; EvLogError msg;
                 EvInterrupt (interruptExternalConnections Cases.s_failing)].
Proof.
  apply (SelectOutbound_store_failure Cases.w_failing Cases.picked_failing.1.1
           Cases.s_failing Cases.picked_failing.1.2 "B" Demo.B Cases.failing_store
           Cases.picked_failing.2); settle.
Defined.

Lemma SelectOutbound_then_Now_witness :
  (true = true ↔ is_Some (outbounds Demo.s_static !! "B"))
  ∧ (true = true →
     Now Demo.s_static_B = Return "B"
     ∧ outbounds Demo.s_static_B = outbounds Demo.s_static
     ∧ All Demo.s_static_B = All Demo.s_static)
  ∧ (true = false → Demo.s_static_B = Demo.s_static ∧ Demo.w_static_B = Demo.w_static).
Proof.
  apply (SelectOutbound_then_Now Demo.w_static Demo.w_static_B Demo.s_static
           Demo.s_static_B "B" true).
  - apply (filterOutbounds_ok Demo.w_static (bindProviders Demo.w_static Demo.sel_static)
             "" (bindProviders Demo.w_static Demo.sel_static) (tags Demo.s_static)
             (outbounds Demo.s_static)).
    settle.
  - settle.
Defined.

Lemma HasProvider_explicit_bound_witness :
  (HasProvider Demo.w_two (bindProviders Demo.w_two Demo.sel_two) "providerC" = true
   ↔ is_Some (providers (bindProviders Demo.w_two Demo.sel_two) !! "providerC"))
  ∧ (HasProvider Demo.w_two (bindProviders Demo.w_two Demo.sel_two) "providerC" = false →
     ∃ e, UpdateOutbounds Demo.w_two (bindProviders Demo.w_two Demo.sel_two) "providerC"
          = Return (Demo.w_two, bindProviders Demo.w_two Demo.sel_two, Some e)).
Proof.
  apply (HasProvider_explicit_bound Demo.w_two Demo.w_two Demo.sel_two "providerC");
    settle.
Defined.

Lemma UpdateOutbounds_swallows_errors_witness : Cases.U_shrunk.2 = None.
Proof.
  apply (UpdateOutbounds_swallows_errors Demo.w_shrunk Cases.U_shrunk.1.1 Demo.s_two
           Cases.U_shrunk.1.2 "providerA" Cases.U_shrunk.2); settle.
Defined.

Lemma UpdateOutbounds_failed_rebuild_witness :
  ∃ msg, UpdateOutbounds Cases.w_gone Cases.s_mixed "providerA" = Panic msg.
Proof.
  refine (proj2 (proj2 (proj2 (proj2
            (UpdateOutbounds_failed_rebuild Cases.w_gone Cases.s_mixed
               (Cases.r_state Cases.R_gone) "providerA" (Cases.r_tags Cases.R_gone)
               (Cases.r_map Cases.R_gone) "outbound 0 not found: A" _ _)))) _ _);
    settle.
Defined.

Lemma UpdateOutbounds_frame_witness :
  providers Cases.U_shrunk.1.2 = providers Demo.s_two
  ∧ providerTags Cases.U_shrunk.1.2 = providerTags Demo.s_two
  ∧ include Cases.U_shrunk.1.2 = include Demo.s_two
  ∧ exclude Cases.U_shrunk.1.2 = exclude Demo.s_two
  ∧ defaultTag Cases.U_shrunk.1.2 = defaultTag Demo.s_two
  ∧ adapterTag Cases.U_shrunk.1.2 = adapterTag Demo.s_two
  ∧ adapterDependencies Cases.U_shrunk.1.2 = adapterDependencies Demo.s_two
  ∧ w_outbounds Cases.U_shrunk.1.1 = w_outbounds Demo.w_shrunk
  ∧ w_providers Cases.U_shrunk.1.1 = w_providers Demo.w_shrunk.
Proof.
  apply (UpdateOutbounds_frame Demo.w_shrunk Cases.U_shrunk.1.1 Demo.s_two
           Cases.U_shrunk.1.2 "providerA" Cases.U_shrunk.2); settle.
Defined.

Lemma NewSelectorFromOptions_no_pattern_keeps_all_witness :
  ∃ s, NewSelectorFromOptions Cases.compile "select" Cases.options_plain = (Some s, None)
       ∧ ∀ ds tags cache m,
           fetchLoop s ds tags cache m = (tags ++ map o_tag ds, cache ++ ds, insertAll ds m).
Proof.
  apply (NewSelectorFromOptions_no_pattern_keeps_all Cases.compile "select"
           Cases.options_plain); settle.
Defined.

Lemma Now_before_Start_witness : Now Cases.s_plain = Return "A".
Proof.
  refine (Now_before_Start Cases.compile "select" Cases.options_plain Cases.s_plain _).
  settle.
Defined.

Lemma reloadFile_failure_keeps_list_witness :
  ProviderLocal.lastOutOpts Cases.held_later = ProviderLocal.lastOutOpts Cases.held
  ∧ ProviderLocal.adapterOutbounds Cases.held_later = ProviderLocal.adapterOutbounds Cases.held
  ∧ ProviderLocal.watcher Cases.held_later = ProviderLocal.watcher Cases.held
  ∧ ProviderLocal.updating Cases.held_later = ProviderLocal.updating Cases.held
  ∧ ((∃ e', ProviderLocal.env_ReadFile Demo.env_read_fails "/etc/sing-box/nodes.txt"
            = inr e')
     ∨ (∃ c e', ProviderLocal.env_ReadFile Demo.env_read_fails "/etc/sing-box/nodes.txt"
                = inl c
                ∧ ProviderLocal.env_ParseSubscription Demo.env_read_fails c = inr e')).
Proof.
  apply (reloadFile_failure_keeps_list Demo.env_read_fails Cases.held Cases.held_later
           "/etc/sing-box/nodes.txt" "no such file"). settle.
Defined.

Lemma NewProviderLocal_after_load_witness :
  ProviderLocal.NewProviderLocal Demo.env_stat_fails "local" "nodes.txt"
  = (Some Cases.constructed, None).
Proof.
  refine (NewProviderLocal_after_load Demo.env_stat_fails "local" "nodes.txt" "nodes"
            [Demo.node] _ _ _ _); settle.
Defined.

Lemma UpdateOutbounds_resets_unpersisted_selection_witness :
  ∃ w' s', UpdateOutbounds Cases.w_nostore_picked Cases.s_nostore "providerA"
           = Return (w', s', None)
           ∧ Now s' = Return (if bool_decide (defaultTag Cases.s_nostore = "")
                              then "pa-1" else defaultTag Cases.s_nostore)
           ∧ All s' = "pa-1" :: ["pa-2"; "pb-1"].
Proof.
  apply (UpdateOutbounds_resets_unpersisted_selection Cases.w_nostore_picked
           Cases.s_nostore (Cases.r_state Cases.R_nostore) "providerA" "pa-1"
           ["pa-2"; "pb-1"] (Cases.r_map Cases.R_nostore)); first [settle | quiet].
Defined.

Lemma UpdateOutbounds_keeps_persisted_choice_witness :
  ∃ w' s', UpdateOutbounds Cases.w_picked_shrunk Demo.s_picked "providerA"
           = Return (w', s', None)
           ∧ Now s' = Return "pb-1"
           ∧ selected s' = Cases.r_map Cases.R_picked !! "pb-1".
Proof.
  apply (UpdateOutbounds_keeps_persisted_choice Cases.w_picked_shrunk Demo.s_picked
           (Cases.r_state Cases.R_picked) "providerA" "pb-1"
           (Cases.r_tags Cases.R_picked) (Cases.r_map Cases.R_picked)
           Cases.store_picked); first [settle | quiet].
Defined.

(** ** A nil cache entry is never served *)




Example nil_entry_then_requery :
  outboundsCache Cases.s_A_empty !! "providerA" = Some []
  ∧ tags Cases.s_A_empty = ["pb-1"]
  ∧ ∃ w' s', UpdateOutbounds Demo.w_two Cases.s_A_empty "providerB"
             = Return (w', s', None)
             ∧ tags s' = ["pa-1"; "pa-2"; "pb-1"]
             ∧ outboundsCache s' !! "providerA" = Some [Demo.pa1; Demo.pa2].
Proof. split; [|split]; [vm_compute; reflexivity ..|]. eexists _, _. vm_compute. done. Qed.


(** ** The change callback and the start of the provider *)

(** X24.  The change callback coalesces and always reports.  While a reload
    is in flight the event is dropped: nothing changes and nobody is
    notified.  On an idle provider whose file reads and parses, the callback
    ends idle holding and managing the newly parsed list and notifies the
    groups once; when the read or the parse fails, it ends idle with the
    previous list, logs that error once and then notifies the groups.  In
    both cases the update time follows the stat step. *)
Theorem watcherCallback_coalesces (env : ProviderLocal.Env)
    (s : ProviderLocal.ProviderLocal) (path : string) :
  (ProviderLocal.updating s = true →
   ProviderLocal.watcherCallback env s path = (s, []))
  ∧ (ProviderLocal.updating s = false →
     ∀ c opts,
       ProviderLocal.env_ReadFile env path = inl c →
       ProviderLocal.env_ParseSubscription env c = inl opts →
       ProviderLocal.watcherCallback env s path
       = (ProviderLocal.mkProviderLocal (ProviderLocal.adapterTag s) opts opts
            (match ProviderLocal.env_Stat env path with
             | inl modTime => modTime
             | inr _ => ProviderLocal.lastUpdated s
             end) (ProviderLocal.watcher s) false,
          [ProviderLocal.UpdateGroups]))
  ∧ (ProviderLocal.updating s = false →
     ∀ e,
       ProviderLocal.env_ReadFile env path = inr e
       ∨ (∃ c, ProviderLocal.env_ReadFile env path = inl c
               ∧ ProviderLocal.env_ParseSubscription env c = inr e) →
       ProviderLocal.watcherCallback env s path
       = (ProviderLocal.mkProviderLocal (ProviderLocal.adapterTag s)
            (ProviderLocal.adapterOutbounds s) (ProviderLocal.lastOutOpts s)
            (match ProviderLocal.env_Stat env path with
             | inl modTime => modTime
             | inr _ => ProviderLocal.lastUpdated s
             end) (ProviderLocal.watcher s) false,
          [ProviderLocal.LogError
             ("reload provider " +:+ ProviderLocal.adapterTag s +:+ ": " +:+ e);
           ProviderLocal.UpdateGroups])).
Proof.
  unfold ProviderLocal.watcherCallback, ProviderLocal.reloadFile.
  split; [|split].
  - by intros ->.
  - intros -> c opts Hr Hp. simpl. rewrite Hr, Hp.
    by destruct (ProviderLocal.env_Stat env path).
  - intros -> e [Hr | (c & Hr & Hp)]; simpl.
    + rewrite Hr. by destruct (ProviderLocal.env_Stat env path).
    + rewrite Hr, Hp. by destruct (ProviderLocal.env_Stat env path).
Qed.

(** The provider construction returns. *)
Lemma NewProviderLocal_returned env tag path p err :
  ProviderLocal.NewProviderLocal env tag path = (Some p, err) →
  ProviderLocal.updating p = false ∧ ProviderLocal.adapterTag p = tag.
Proof.
  unfold ProviderLocal.NewProviderLocal, ProviderLocal.reloadFile.
  case_bool_decide; [done|]. case_bool_decide; [done|].
  destruct (ProviderLocal.env_ReadFile env _) as [c|e]; [|done].
  destruct (ProviderLocal.env_ParseSubscription env c) as [opts|e]; [|done].
  destruct (ProviderLocal.env_NewWatcher env _) as [wt|e]; [|done].
  intros [= <- _]. by destruct (ProviderLocal.env_Stat env _).
Qed.

(** X26.  A provider that construction returned is idle, so its first
    change event is never dropped.  If the file then reads and parses, the
    callback leaves the provider idle, holding the newly parsed list, and
    its only notice is the notification of the groups; if the read or the
    parse fails, the callback leaves it idle with the list it was
    constructed with, and its notices are that error, logged under the
    provider's tag, followed by the notification of the groups. *)
Theorem constructed_provider_reloads (env env2 : ProviderLocal.Env)
    (tag path path2 : string) (p : ProviderLocal.ProviderLocal) :
  ProviderLocal.NewProviderLocal env tag path = (Some p, None) →
  (∀ c opts,
     ProviderLocal.env_ReadFile env2 path2 = inl c →
     ProviderLocal.env_ParseSubscription env2 c = inl opts →
     ∃ p', ProviderLocal.watcherCallback env2 p path2 = (p', [ProviderLocal.UpdateGroups])
           ∧ ProviderLocal.IsUpdating p' = false
           ∧ ProviderLocal.lastOutOpts p' = opts
           ∧ ProviderLocal.adapterOutbounds p' = opts)
  ∧ (∀ e,
       ProviderLocal.env_ReadFile env2 path2 = inr e
       ∨ (∃ c, ProviderLocal.env_ReadFile env2 path2 = inl c
               ∧ ProviderLocal.env_ParseSubscription env2 c = inr e) →
       ∃ p', ProviderLocal.watcherCallback env2 p path2
             = (p', [ProviderLocal.LogError ("reload provider " +:+ tag +:+ ": " +:+ e);
                     ProviderLocal.UpdateGroups])
             ∧ ProviderLocal.IsUpdating p' = false
             ∧ ProviderLocal.lastOutOpts p' = ProviderLocal.lastOutOpts p
             ∧ ProviderLocal.adapterOutbounds p' = ProviderLocal.adapterOutbounds p).
Proof.
  intros Hnew. destruct (NewProviderLocal_returned _ _ _ _ _ Hnew) as [Hidle Htag].
  unfold ProviderLocal.watcherCallback, ProviderLocal.reloadFile,
    ProviderLocal.IsUpdating.
  rewrite Hidle, Htag. split.
  - intros c opts Hr Hp. simpl. rewrite Hr, Hp.
    eexists. split; [reflexivity|].
    by destruct (ProviderLocal.env_Stat env2 path2).
  - intros e [Hr | (c & Hr & Hp)]; simpl.
    + rewrite Hr. eexists. split; [reflexivity|].
      by destruct (ProviderLocal.env_Stat env2 path2).
    + rewrite Hr, Hp. eexists. split; [reflexivity|].
      by destruct (ProviderLocal.env_Stat env2 path2).
Qed.

Lemma constructed_provider_reloads_witness :
  ∃ p', ProviderLocal.watcherCallback Demo.env_read_fails Cases.constructed
          "/etc/sing-box/nodes.txt"
        = (p', [ProviderLocal.LogError
                  ("reload provider " +:+ "local" +:+ ": " +:+ "no such file");
                ProviderLocal.UpdateGroups])
        ∧ ProviderLocal.IsUpdating p' = false
        ∧ ProviderLocal.lastOutOpts p' = ProviderLocal.lastOutOpts Cases.constructed
        ∧ ProviderLocal.adapterOutbounds p'
          = ProviderLocal.adapterOutbounds Cases.constructed.
Proof.
  refine (proj2 (constructed_provider_reloads Demo.env_stat_fails Demo.env_read_fails
                   "local" "nodes.txt" "/etc/sing-box/nodes.txt" Cases.constructed _)
            "no such file" _).
  - settle.
  - left. settle.
Defined.

(** X27.  [Start] of the provider.  When the embedded Adapter fails to
    start, [Start] returns that error and the watcher is not started.  When
    the Adapter starts, [Start] returns nil whatever the watcher does: a
    provider with a watcher starts it, and a watcher that fails to start
    costs exactly one "watch provider file" error log line; a provider
    without a watcher starts nothing more. *)
Theorem ProviderLocal_Start_outcome (adapterStart : error)
    (watcherStart : ProviderLocal.Watcher -> error) (s : ProviderLocal.ProviderLocal) :
  (∀ e, adapterStart = Some e →
        ProviderLocal.Start adapterStart watcherStart s
        = (Some e, [ProviderLocal.AdapterStart]))
  ∧ (adapterStart = None →
     ∀ wt, ProviderLocal.watcher s = Some wt →
       (∀ e, watcherStart wt = Some e →
             ProviderLocal.Start adapterStart watcherStart s
             = (None, [ProviderLocal.AdapterStart; ProviderLocal.WatcherStart wt;
                       ProviderLocal.LogError ("watch provider file: " +:+ e)]))
       ∧ (watcherStart wt = None →
          ProviderLocal.Start adapterStart watcherStart s
          = (None, [ProviderLocal.AdapterStart; ProviderLocal.WatcherStart wt])))
  ∧ (adapterStart = None → ProviderLocal.watcher s = None →
     ProviderLocal.Start adapterStart watcherStart s
     = (None, [ProviderLocal.AdapterStart])).
Proof.
  unfold ProviderLocal.Start. split; [|split].
  - by intros e ->.
  - intros -> wt Hw. rewrite Hw. split.
    + by intros e ->.
    + by intros ->.
  - by intros -> ->.
Qed.
